(** * Constrained greedy set cover of [multiple_coverage_analysis.py]

    A shallow embedding of the coverage engine of the scouting-coverage
    script: [find_team_coverage] (the coverage index),
    [greedy_set_cover_with_required_team] (the required-first greedy
    selector) and [find_alternative_solutions] (the explorer), followed by
    the properties of the specification that concern them.

    Modelling choices, all taken from the Python source:
    - an event name is a [string], a team number a Python [int], here [Z];
    - a [dict] is an association list in insertion order: the engine
      iterates over [events.items()] and [team_coverage.items()], and the
      order of iteration decides ties and seeds;
    - a Python [set] of event names is a [gset string], a set of team
      numbers a [gset Z]; the engine only takes unions, intersections,
      differences, sizes and equalities of its sets, never iterates them;
    - [len] is a [nat]; the slice bound [max_solutions] is an [int] and
      slices follow Python for negative bounds;
    - [d[k]] on a missing key raises [KeyError]: [dict_getitem] returns an
      [option], and the explorer, which indexes [team_coverage] outside a
      membership guard, lives in the [option] monad;
    - the [print] calls of the engine have no bearing on the returned data
      and are left out. *)

From Equations Require Import Equations.
From stdpp Require Import gmap strings list pretty.

Set Warnings "-clear-no-such-hyp".

Open Scope string_scope.
Open Scope list_scope.
Open Scope nat_scope.

(** ** Python dictionaries and slices *)

Module PyDict.

Section Dict.
Context {K V : Type} `{EqDecision K}.

(** [d[k]]: the value of the first (and, in a dictionary, only) entry
    with key [k]; [None] stands for [KeyError]. *)
Fixpoint dict_getitem (d : list (K * V)) (k : K) : option V :=
  match d with
  | [] => None
  | (k', v) :: d' => if decide (k' = k) then Some v else dict_getitem d' k
  end.

(** The keys of a dictionary are pairwise distinct. *)
Definition dict_wf (d : list (K * V)) : Prop := NoDup d.*1.

End Dict.

(** [l[:k]] for a Python integer [k]: a negative bound counts from the
    end of the list. *)
Definition py_slice_to {A : Type} (l : list A) (k : Z) : list A :=
  if decide (k < 0)%Z then take (length l - Z.to_nat (- k)) l
  else take (Z.to_nat k) l.

(** [l.remove(x)]: drops the first occurrence of [x]. The engine calls it
    only after checking [x in l]. *)
Fixpoint py_remove (l : list Z) (x : Z) : list Z :=
  match l with
  | [] => []
  | y :: l' => if decide (y = x) then l' else y :: py_remove l' x
  end.

(** Truthiness of an [Optional[int]]: [None] and [0] are false. *)
Definition truthy (o : option Z) : bool :=
  match o with
  | Some z => bool_decide (z ≠ 0%Z)
  | None => false
  end.

(** [xs or []] for an optional list argument. *)
Definition or_empty (o : option (list Z)) : list Z := default [] o.

End PyDict.
Import PyDict.

(** ** The coverage index: [find_team_coverage] *)

(** [team_to_events[team].append(event_name)] on a
    [defaultdict(list)]: an existing key keeps its place, a new key goes
    to the end of the insertion order. *)
Fixpoint defaultdict_append (d : list (Z * list string)) (team : Z)
    (event_name : string) : list (Z * list string) :=
  match d with
  | [] => [(team, [event_name])]
  | (k, v) :: d' =>
      if decide (k = team) then (k, v ++ [event_name]) :: d'
      else (k, v) :: defaultdict_append d' team event_name
  end.

(** The test of lines 127-128. *)
Definition eligible (max_team_number : Z) (excluded_teams included_teams : list Z)
    (team : Z) : bool :=
  bool_decide (((team ≤ max_team_number)%Z ∨ team ∈ included_teams)
               ∧ team ∉ excluded_teams).

(** The inner loop, lines 123-129, over the teams of one event. *)
Definition add_teams (max_team_number : Z) (excluded_teams included_teams : list Z)
    (event_name : string) (teams : list Z) (team_to_events : list (Z * list string))
    : list (Z * list string) :=
  fold_left
    (λ team_to_events team,
       if eligible max_team_number excluded_teams included_teams team
       then defaultdict_append team_to_events team event_name
       else team_to_events)
    teams team_to_events.

(** The outer loop, line 122, over [events.items()]. *)
Definition add_events (max_team_number : Z) (excluded_teams included_teams : list Z)
    (events : list (string * list Z)) (team_to_events : list (Z * list string))
    : list (Z * list string) :=
  fold_left
    (λ team_to_events '(event_name, teams),
       add_teams max_team_number excluded_teams included_teams event_name teams
         team_to_events)
    events team_to_events.

Definition find_team_coverage (events : list (string * list Z))
    (max_team_number : Z) (excluded_teams included_teams : option (list Z))
    : list (Z * list string) :=
  let excluded_teams := or_empty excluded_teams in
  let included_teams := or_empty included_teams in
  add_events max_team_number excluded_teams included_teams events [].

(** ** The selector: [greedy_set_cover_with_required_team] *)

(** One turn of the [for team, team_events in team_coverage.items()] scan
    of lines 155-163; the state is [(best_team, best_coverage, best_events)]. *)
Definition scan_step (selected_teams : list Z) (uncovered_events : gset string)
    (st : option Z * nat * gset string) (item : Z * list string)
    : option Z * nat * gset string :=
  let '(best_team, best_coverage, best_events) := st in
  let '(team, team_events) := item in
  if decide (team ∈ selected_teams) then st
  else
    let coverage_set := list_to_set team_events ∩ uncovered_events in
    let coverage := size coverage_set in
    if decide (best_coverage < coverage) then (Some team, coverage, coverage_set)
    else st.

Definition find_best (team_coverage : list (Z * list string))
    (selected_teams : list Z) (uncovered_events : gset string)
    : option Z * nat * gset string :=
  fold_left (scan_step selected_teams uncovered_events) team_coverage (None, 0, ∅).

(** The entries of the index whose team is not selected yet: the measure
    under which both greedy loops are defined. *)
Definition unselected (team_coverage : list (Z * list string))
    (selected_teams : list Z) : nat :=
  length (filter (λ item, item.1 ∉ selected_teams) team_coverage).

Definition inspect {A : Type} (a : A) : {b : A | a = b} := exist _ a eq_refl.

Section ScanFacts.
Variables (sel : list Z) (unc : gset string).

Lemma scan_step_team tc st b c e :
  fold_left (scan_step sel unc) tc st = (Some b, c, e) →
  st.1.1 = Some b ∨ (b ∈ tc.*1 ∧ b ∉ sel).
Proof.
  revert st. induction tc as [|[t evs] tc IH]; intros st Hf; simpl in *.
  - left. by rewrite Hf.
  - apply IH in Hf as [Hf | [? ?]]; [|right; split; [set_solver|done]].
    destruct st as [[bt bc] be]. unfold scan_step in Hf.
    destruct (decide (t ∈ sel)); [by left|].
    case_decide; [|by left].
    simpl in Hf. injection Hf as <-. right. split; [set_solver|done].
Qed.

Lemma unselected_snoc_lt tc b :
  b ∈ tc.*1 → b ∉ sel → unselected tc (sel ++ [b]) < unselected tc sel.
Proof.
  unfold unselected. intros Hb Hn.
  induction tc as [|[t evs] tc IH]; [by apply elem_of_nil in Hb|].
  assert (Hle : ∀ l : list (Z * list string),
    length (filter (λ item, item.1 ∉ sel ++ [b]) l)
    ≤ length (filter (λ item, item.1 ∉ sel) l)).
  { intros l. induction l as [|[t' ?] l IHl]; [done|].
    rewrite !filter_cons. simpl.
    destruct (decide (t' ∉ sel ++ [b])) as [Hin|Hin];
      destruct (decide (t' ∉ sel)) as [Hin'|Hin']; simpl; try lia.
    exfalso. apply Hin'. intros Hs. apply Hin. set_solver. }
  rewrite !filter_cons. simpl.
  destruct (decide (t = b)) as [->|Hne].
  - rewrite decide_False by set_solver. rewrite decide_True by done.
    simpl. specialize (Hle tc). lia.
  - assert (b ∈ tc.*1) as Hb' by set_solver. specialize (IH Hb').
    destruct (decide (t ∉ sel ++ [b])) as [Hin|Hin];
      destruct (decide (t ∉ sel)) as [Hin'|Hin']; simpl; try lia.
    exfalso. apply Hin'. intros Hs. apply Hin. set_solver.
Qed.

Lemma find_best_unselected tc b c e :
  find_best tc sel unc = (Some b, c, e) →
  unselected tc (sel ++ [b]) < unselected tc sel.
Proof.
  intros Hf. apply scan_step_team in Hf as [Hf|[? ?]]; [done|].
  by apply unselected_snoc_lt.
Qed.
End ScanFacts.

(** The [while uncovered_events:] loop of lines 149-172. It returns the
    final [(selected_teams, uncovered_events)]. *)
Equations? greedy_loop (team_coverage : list (Z * list string))
    (selected_teams : list Z) (uncovered_events : gset string)
    : list Z * gset string
    by wf (unselected team_coverage selected_teams) lt :=
  greedy_loop team_coverage selected_teams uncovered_events
    with decide (uncovered_events = ∅) => {
    | left _ := (selected_teams, uncovered_events);
    | right _
        with inspect (find_best team_coverage selected_teams uncovered_events) => {
        | exist _ (None, _, _) _ := (selected_teams, uncovered_events);
        | exist _ (Some best_team, _, best_events) Hbest :=
            greedy_loop team_coverage (selected_teams ++ [best_team])
              (uncovered_events ∖ best_events) } }.
Proof. by eapply find_best_unselected. Qed.

(** Lines 142-146 (and 204-207 with [start_team] given): the required team
    goes first when it is truthy, differs from the seed of the round and is
    a key of the index. *)
Definition seed_required (team_coverage : list (Z * list string))
    (required_team : option Z) (start_team : option Z)
    (selected_teams : list Z) (uncovered_events : gset string)
    : list Z * gset string :=
  match required_team with
  | Some r =>
      if truthy required_team && bool_decide (required_team ≠ start_team) then
        match dict_getitem team_coverage r with
        | Some team_events =>
            (selected_teams ++ [r], uncovered_events ∖ list_to_set team_events)
        | None => (selected_teams, uncovered_events)
        end
      else (selected_teams, uncovered_events)
  | None => (selected_teams, uncovered_events)
  end.

Definition greedy_set_cover_with_required_team (events : list (string * list Z))
    (required_team : option Z) (max_team_number : Z)
    (excluded_teams included_teams : option (list Z)) : list Z * nat :=
  let uncovered_events : gset string := list_to_set events.*1 in
  let selected_teams : list Z := [] in
  let team_coverage :=
    find_team_coverage events max_team_number excluded_teams included_teams in
  let '(selected_teams, uncovered_events) :=
    seed_required team_coverage required_team None selected_teams uncovered_events in
  let '(selected_teams, _) :=
    greedy_loop team_coverage selected_teams uncovered_events in
  (selected_teams, length selected_teams).

(** ** The explorer: [find_alternative_solutions] *)

(** The scan of lines 219-225 keeps [(best_team, best_coverage)] only. *)
Definition scan_step_team_only (selected_teams : list Z)
    (uncovered_events : gset string)
    (st : option Z * nat) (item : Z * list string) : option Z * nat :=
  let '(best_team, best_coverage) := st in
  let '(team, team_events) := item in
  if decide (team ∈ selected_teams) then st
  else
    let coverage := size (list_to_set team_events ∩ uncovered_events) in
    if decide (best_coverage < coverage) then (Some team, coverage) else st.

Definition find_best_team (team_coverage : list (Z * list string))
    (selected_teams : list Z) (uncovered_events : gset string) : option Z * nat :=
  fold_left (scan_step_team_only selected_teams uncovered_events)
    team_coverage (None, 0).

Lemma find_best_team_unselected tc sel unc b c :
  find_best_team tc sel unc = (Some b, c) →
  unselected tc (sel ++ [b]) < unselected tc sel.
Proof.
  intros Hf. apply unselected_snoc_lt.
  - cut ((None : option Z, 0).1 = Some b ∨ b ∈ tc.*1); [by intros [?|?]|].
    revert Hf. unfold find_best_team. generalize (None : option Z, 0).
    induction tc as [|[t evs] tc IH]; intros st Hf; simpl in *.
    { left. by rewrite Hf. }
    apply IH in Hf as [Hf|?]; [|right; set_solver].
    destruct st as [bt bc]. simpl in Hf.
    destruct (decide (t ∈ sel)); [by left|].
    case_decide; [|by left]. injection Hf as <-. right. set_solver.
  - cut ((None : option Z, 0).1 = Some b ∨ b ∉ sel); [by intros [?|?]|].
    revert Hf. unfold find_best_team. generalize (None : option Z, 0).
    induction tc as [|[t evs] tc IH]; intros st Hf; simpl in *.
    { left. by rewrite Hf. }
    apply IH in Hf as [Hf|?]; [|by right].
    destruct st as [bt bc]. simpl in Hf.
    destruct (decide (t ∈ sel)); [by left|].
    case_decide; [|by left]. injection Hf as <-. by right.
Qed.

(** The [while uncovered_events:] loop of lines 215-232; line 231 indexes
    [team_coverage[best_team]]. *)
Equations? explorer_loop (team_coverage : list (Z * list string))
    (selected_teams : list Z) (uncovered_events : gset string)
    : option (list Z * gset string)
    by wf (unselected team_coverage selected_teams) lt :=
  explorer_loop team_coverage selected_teams uncovered_events
    with decide (uncovered_events = ∅) => {
    | left _ := Some (selected_teams, uncovered_events);
    | right _
        with inspect (find_best_team team_coverage selected_teams uncovered_events) => {
        | exist _ (None, _) _ := Some (selected_teams, uncovered_events);
        | exist _ (Some best_team, _) Hbest :=
            match dict_getitem team_coverage best_team with
            | None => None
            | Some team_events =>
                explorer_loop team_coverage (selected_teams ++ [best_team])
                  (uncovered_events ∖ (list_to_set team_events ∩ uncovered_events))
            end } }.
Proof. by eapply find_best_team_unselected. Qed.

(** Lines 235-237: [all_covered.update(team_coverage[team])] for every
    selected team. *)
Fixpoint all_covered_of (team_coverage : list (Z * list string))
    (selected_teams : list Z) (all_covered : gset string) : option (gset string) :=
  match selected_teams with
  | [] => Some all_covered
  | team :: rest =>
      team_events ← dict_getitem team_coverage team;
      all_covered_of team_coverage rest (all_covered ∪ list_to_set team_events)
  end.

(** A solution is the tuple [(selected_teams, len(selected_teams))]. *)
Definition solution : Type := list Z * nat.

(** [any(set(sol[0]) == set(selected_teams) for sol in solutions)] *)
Definition already_found (solutions : list solution) (selected_teams : list Z) : bool :=
  existsb
    (λ sol, bool_decide ((list_to_set sol.1 : gset Z) = list_to_set selected_teams))
    solutions.

(** Lines 200-212: the state in which the round of [start_team] enters
    its greedy loop. *)
Definition start_state (events : list (string * list Z))
    (team_coverage : list (Z * list string)) (required_team : option Z)
    (start_team : Z) : list Z * gset string :=
  let uncovered_events : gset string := list_to_set events.*1 in
  let selected_teams : list Z := [] in
  let '(selected_teams, uncovered_events) :=
    seed_required team_coverage required_team (Some start_team)
      selected_teams uncovered_events in
  match dict_getitem team_coverage start_team with
  | Some team_events =>
      (selected_teams ++ [start_team],
       uncovered_events ∖ (list_to_set team_events ∩ uncovered_events))
  | None => (selected_teams, uncovered_events)
  end.

(** The body of the [for start_team in ...] loop, lines 197-243; it maps
    the accumulated [solutions] to the new ones. *)
Definition try_start_team (events : list (string * list Z))
    (team_coverage : list (Z * list string)) (required_team : option Z)
    (solutions : list solution) (start_team : Z) : option (list solution) :=
  if bool_decide (Some start_team = required_team)
     && bool_decide (0 < length solutions)
  then Some solutions
  else
    let '(selected_teams, uncovered_events) :=
      start_state events team_coverage required_team start_team in
    '(selected_teams, _) ← explorer_loop team_coverage selected_teams uncovered_events;
    all_covered ← all_covered_of team_coverage selected_teams ∅;
    if bool_decide (size all_covered = length events) then
      if already_found solutions selected_teams then Some solutions
      else Some (solutions ++ [(selected_teams, length selected_teams)])
    else Some solutions.

(** A [for] loop whose body may raise. *)
Fixpoint for_each {S A : Type} (body : S → A → option S) (s : S) (l : list A)
    : option S :=
  match l with
  | [] => Some s
  | x :: l' => s' ← body s x; for_each body s' l'
  end.

(** Lines 186-193: the seeds. *)
Definition multi_event_teams (team_coverage : list (Z * list string))
    (required_team : option Z) : list Z :=
  let multi_event_teams :=
    (filter (λ item, 2 ≤ length item.2) team_coverage).*1 in
  match required_team with
  | Some r =>
      if truthy required_team then
        r :: (if decide (r ∈ multi_event_teams) then py_remove multi_event_teams r
              else multi_event_teams)
      else multi_event_teams
  | None => multi_event_teams
  end.

Definition find_alternative_solutions (events : list (string * list Z))
    (required_team : option Z) (max_solutions : Z) (max_team_number : Z)
    (excluded_teams included_teams : option (list Z)) : option (list solution) :=
  let team_coverage :=
    find_team_coverage events max_team_number excluded_teams included_teams in
  let solutions : list solution := [] in
  let solution1 :=
    greedy_set_cover_with_required_team events required_team max_team_number
      excluded_teams included_teams in
  let solutions := solutions ++ [solution1] in
  solutions ←
    for_each (try_start_team events team_coverage required_team) solutions
      (py_slice_to (multi_event_teams team_coverage required_team) max_solutions);
  Some (py_slice_to solutions max_solutions).

(** ** Vocabulary of the properties *)

(** [len(set(team_events) & uncovered_events)], the marginal coverage of an
    entry of the index. *)
Definition marginal_coverage (uncovered_events : gset string)
    (team_events : list string) : nat :=
  size ((list_to_set team_events : gset string) ∩ uncovered_events).

(** Entry number [i] of the index is the one the scan settles on: its team
    is not selected, its marginal coverage is positive and at least that of
    every other entry with an unselected team, and strictly above that of
    every such entry met before it. *)
Definition first_best (team_coverage : list (Z * list string))
    (selected_teams : list Z) (uncovered_events : gset string)
    (i : nat) (team : Z) (team_events : list string) : Prop :=
  team_coverage !! i = Some (team, team_events)
  ∧ (team ∉ selected_teams)
  ∧ 0 < marginal_coverage uncovered_events team_events
  ∧ ∀ j team' team_events',
      team_coverage !! j = Some (team', team_events') →
      team' ∉ selected_teams →
      marginal_coverage uncovered_events team_events'
        ≤ marginal_coverage uncovered_events team_events
      ∧ (j < i → marginal_coverage uncovered_events team_events'
                 < marginal_coverage uncovered_events team_events).

(** No entry with an unselected team covers an uncovered event. *)
Definition no_candidate (team_coverage : list (Z * list string))
    (selected_teams : list Z) (uncovered_events : gset string) : Prop :=
  ∀ team team_events, (team, team_events) ∈ team_coverage →
    team ∉ selected_teams → marginal_coverage uncovered_events team_events = 0.

(** What the scan knows after the entries [tc]: its state [st] is that of
    [no_candidate] or names the [first_best] entry. *)
Definition scan_inv (sel : list Z) (unc : gset string)
    (tc : list (Z * list string)) (st : option Z * nat * gset string) : Prop :=
  match st with
  | (None, c, e) => c = 0 ∧ e = ∅ ∧ no_candidate tc sel unc
  | (Some b, c, e) =>
      ∃ i evs, first_best tc sel unc i b evs
               ∧ e = list_to_set evs ∩ unc ∧ c = size e
  end.

(** The loops as step relations. [greedy_run tc sel unc n sel' unc'] holds
    when the selector's loop, entered with [selected_teams = sel] and
    [uncovered_events = unc], leaves after [n] rounds that appended a team,
    with [selected_teams = sel'] and [uncovered_events = unc']. *)
Inductive greedy_run (tc : list (Z * list string))
    : list Z → gset string → nat → list Z → gset string → Prop :=
| greedy_run_covered sel unc :
    unc = ∅ → greedy_run tc sel unc 0 sel unc
| greedy_run_break sel unc c e :
    unc ≠ ∅ → find_best tc sel unc = (None, c, e) →
    greedy_run tc sel unc 0 sel unc
| greedy_run_round sel unc b c e n sel' unc' :
    unc ≠ ∅ → find_best tc sel unc = (Some b, c, e) →
    greedy_run tc (sel ++ [b]) (unc ∖ e) n sel' unc' →
    greedy_run tc sel unc (S n) sel' unc'.

(** The same for the explorer's loop, which looks the events of the chosen
    team up again. *)
Inductive explorer_run (tc : list (Z * list string))
    : list Z → gset string → nat → list Z → gset string → Prop :=
| explorer_run_covered sel unc :
    unc = ∅ → explorer_run tc sel unc 0 sel unc
| explorer_run_break sel unc c :
    unc ≠ ∅ → find_best_team tc sel unc = (None, c) →
    explorer_run tc sel unc 0 sel unc
| explorer_run_round sel unc b c evs n sel' unc' :
    unc ≠ ∅ → find_best_team tc sel unc = (Some b, c) →
    dict_getitem tc b = Some evs →
    explorer_run tc (sel ++ [b]) (unc ∖ (list_to_set evs ∩ unc)) n sel' unc' →
    explorer_run tc sel unc (S n) sel' unc'.

(** The events covered by a sequence of teams: the union of their entries
    in the index. *)
Definition covered_events (team_coverage : list (Z * list string))
    (selected_teams : list Z) : gset string :=
  ⋃ ((λ team, list_to_set (default [] (dict_getitem team_coverage team)))
       <$> selected_teams).

(** The sets of teams of the solutions of a list are pairwise different. *)
Definition distinct_team_sets (solutions : list solution) : Prop :=
  ∀ i j (a b : solution), i ≠ j →
    solutions !! i = Some a → solutions !! j = Some b →
    (list_to_set a.1 : gset Z) ≠ list_to_set b.1.

(** The teams a round of the explorer ends with. *)
Definition round_teams (events : list (string * list Z))
    (tc : list (Z * list string)) (r : option Z) (s : Z) : list Z :=
  (greedy_loop tc (start_state events tc r s).1 (start_state events tc r s).2).1.

(** What the explorer has accumulated: the list starts with the selector's
    solution; every later entry covers all the events, and no two entries
    have the same set of teams. *)
Definition explorer_inv (events : list (string * list Z)) (required_team : option Z)
    (max_team_number : Z) (excluded_teams included_teams : option (list Z))
    (solutions : list solution) : Prop :=
  let tc := find_team_coverage events max_team_number excluded_teams included_teams in
  head solutions
  = Some (greedy_set_cover_with_required_team events required_team max_team_number
            excluded_teams included_teams)
  ∧ distinct_team_sets solutions
  ∧ ∀ i sol, 0 < i → solutions !! i = Some sol →
      covered_events tc sol.1 = list_to_set events.*1
      ∧ (∀ t, t ∈ sol.1 → t ∈ tc.*1) ∧ NoDup sol.1 ∧ sol.2 = length sol.1.

(** The events listed for a team in the index, read off the raw mapping:
    an event occurs once for each eligible occurrence of the team in its
    team list, events in the order of the mapping. *)
Definition team_events_of (max_team_number : Z) (excluded_teams included_teams : list Z)
    (events : list (string * list Z)) (team : Z) : list string :=
  events ≫= λ '(event_name, teams),
    teams ≫= λ x,
      if decide (x = team) then
        if eligible max_team_number excluded_teams included_teams x
        then [event_name] else []
      else [].

(** Two indices with the same teams in the same order, each team with the
    same events up to their order. *)
Definition index_equiv (tc1 tc2 : list (Z * list string)) : Prop :=
  Forall2 (λ item1 item2, item1.1 = item2.1 ∧ item1.2 ≡ₚ item2.2) tc1 tc2.

(** Every event of [universe] is listed for some team of the index. *)
Definition coverable (tc : list (Z * list string)) (universe : gset string) : Prop :=
  ∀ x, x ∈ universe → ∃ t evs, (t, evs) ∈ tc ∧ x ∈ evs.

(** The solution a round of the explorer proposes. *)
Definition round_solution (events : list (string * list Z))
    (tc : list (Z * list string)) (r : option Z) (s : Z) : solution :=
  (round_teams events tc r s, length (round_teams events tc r s)).

(** ** The command line: [main], lines 392-525

    After the arguments are parsed and the raw mapping is loaded, [main]
    works on the data alone. Its prints are left out; what is modelled is
    the data it prints and the branch it takes. The arguments
    [--exclude-teams] and [--include-teams] are lists (their default is
    the empty list), [team_number], [--max-team] and [--max-solutions] are
    integers. *)

(** Lines 417-423: one pass over [events.values()] that updates
    [all_teams] and [filtered_teams]. *)
Definition team_sets (events : list (string * list Z)) (max_team : Z)
    (exclude_teams include_teams : list Z) : gset Z * gset Z :=
  fold_left
    (λ '(all_teams, filtered_teams) '(_, event_teams),
       (all_teams ∪ list_to_set event_teams,
        filtered_teams
          ∪ list_to_set
              (filter (λ t, eligible max_team exclude_teams include_teams t)
                 event_teams)))
    events (∅, ∅).

(** Lines 425-427: the three sets of the filtering report. *)
Definition excluded_by_number (all_teams : gset Z) (max_team : Z)
    (include_teams : list Z) : gset Z :=
  filter (λ t, (max_team < t)%Z ∧ t ∉ include_teams) all_teams.

Definition excluded_by_list (all_teams : gset Z) (max_team : Z)
    (exclude_teams : list Z) : gset Z :=
  filter (λ t, t ∈ exclude_teams ∧ (t ≤ max_team)%Z) all_teams.

Definition included_by_override (all_teams : gset Z) (max_team : Z)
    (include_teams : list Z) : gset Z :=
  filter (λ t, (max_team < t)%Z ∧ t ∈ include_teams) all_teams.

(** Lines 483-492: what is printed under a solution. *)
Inductive verdict : Type :=
| FullCoverage (covered : nat)              (* "Full coverage verified" *)
| IncompleteCoverage (missing : gset string) (* "Incomplete coverage: Missing" *).

Definition verify_coverage (events : list (string * list Z))
    (team_coverage : list (Z * list string)) (teams : list Z) : verdict :=
  let all_covered : gset string :=
    fold_left
      (λ all_covered team,
         all_covered ∪ list_to_set (default [] (dict_getitem team_coverage team)))
      teams ∅ in
  if bool_decide (size all_covered = length events) then FullCoverage (size all_covered)
  else IncompleteCoverage (list_to_set events.*1 ∖ all_covered).

(** [min(len(teams) for teams, _ in solutions)]; [None] stands for the
    [ValueError] of an empty sequence. *)
Definition min_teams (solutions : list solution) : option nat :=
  match solutions with
  | [] => None
  | sol :: rest => Some (fold_left (λ m sol', m `min` length sol'.1) rest (length sol.1))
  end.

(** The fold of [min_teams], from a first length [m0]. *)
Definition fold_min (rest : list solution) (m0 : nat) : nat :=
  fold_left (λ m (sol' : solution), m `min` length sol'.1) rest m0.

(** Lines 499-504: the minimum number of teams and the solutions that
    reach it; [None] is the branch "No valid solutions found!". *)
Definition recommendations (solutions : list solution) : option (nat * list solution) :=
  match solutions with
  | [] => None
  | _ =>
      m ← min_teams solutions;
      Some (m, filter (λ sol, length sol.1 = m) solutions)
  end.

(** The branch [main] takes, with the data it prints there. *)
Inductive main_outcome : Type :=
| NoEvents                       (* lines 392-397 *)
| TeamExcluded                   (* lines 443-446 *)
| TeamNotFound                   (* lines 449-456 *)
| Raised                         (* an exception leaves [main] *)
| Report (solutions : list solution) (verdicts : list verdict)
    (recommended : option (nat * list solution)).

Definition main_analysis (events : list (string * list Z)) (team_number : Z)
    (max_team max_solutions : Z) (exclude_teams include_teams : list Z)
    : main_outcome :=
  match events with
  | [] => NoEvents
  | _ =>
      let team_coverage :=
        find_team_coverage events max_team (Some exclude_teams) (Some include_teams) in
      if bool_decide (team_number ∈ exclude_teams) then TeamExcluded
      else if bool_decide (team_number ∉ team_coverage.*1) then TeamNotFound
      else
        match find_alternative_solutions events (Some team_number) max_solutions
                max_team (Some exclude_teams) (Some include_teams) with
        | None => Raised
        | Some solutions =>
            Report solutions
              ((λ sol, verify_coverage events team_coverage sol.1) <$> solutions)
              (recommendations solutions)
        end
  end.

(** ** The roster filter: [team_filter.py], [filter_scouting_data]

    A scouting entry is a list of JSON values. Of a value the filter uses
    whether it is [None], whether it equals the string ["id"], and the
    string [str] gives for it. *)

Inductive pyval : Type :=
| PyNone
| PyBool (b : bool)
| PyInt (z : Z)
| PyStr (s : string)
| PyOther (shown : string)   (* a float, list or object, with its [str] *).

#[global] Instance pyval_eq_dec : EqDecision pyval.
Proof. solve_decision. Defined.

(** [str(v)] *)
Definition py_str (v : pyval) : string :=
  match v with
  | PyNone => "None"
  | PyBool true => "True"
  | PyBool false => "False"
  | PyInt z => pretty z
  | PyStr s => s
  | PyOther shown => shown
  end.

(** Line 59: [len(entry) > 0 and entry[0] == "id"]. *)
Definition is_header (entry : list pyval) : bool :=
  match entry with
  | v :: _ => bool_decide (v = PyStr "id")
  | [] => false
  end.

(** Line 65: [str(entry[4]) if entry[4] is not None else ""]. *)
Definition team_field (v : pyval) : string :=
  match v with
  | PyNone => ""
  | _ => py_str v
  end.

(** One turn of the loop of lines 57-73; the state is
    [(filtered_entries, teams_filtered_out)]. *)
Definition filter_entry (event_teams : gset string)
    (st : list (list pyval) * gset string) (entry : list pyval)
    : list (list pyval) * gset string :=
  let '(filtered_entries, teams_filtered_out) := st in
  if is_header entry then (filtered_entries ++ [entry], teams_filtered_out)
  else
    match entry !! 4 with
    | Some v =>                          (* [len(entry) > 4] *)
        let team_number := team_field v in
        if decide (team_number ∈ event_teams)
        then (filtered_entries ++ [entry], teams_filtered_out)
        else (filtered_entries, teams_filtered_out ∪ {[team_number]})
    | None => (filtered_entries, teams_filtered_out)
    end.

(** The loop; [filter_scouting_data] returns [filtered_entries], and
    [teams_filtered_out] goes into the message of lines 75-79. *)
Definition filter_scouting_data_state (scouting_data : list (list pyval))
    (event_teams : gset string) : list (list pyval) * gset string :=
  fold_left (filter_entry event_teams) scouting_data ([], ∅).

Definition filter_scouting_data (scouting_data : list (list pyval))
    (event_teams : gset string) : list (list pyval) :=
  (filter_scouting_data_state scouting_data event_teams).1.

(** The message of lines 75-79, printed after the loop. Under the guard
    [if teams_filtered_out:] (line 75) line 77 prints the number
    [len(filtered_entries) - len(scouting_data)] and the members of
    [teams_filtered_out] other than the empty string, sorted and joined
    (line 76; [teams] is their set); otherwise line 79 prints that no
    entries needed to be filtered. *)
Inductive filter_message : Type :=
| FilteredOut (count : Z) (teams : gset string)
| NothingFiltered.

Definition printed_message (scouting_data : list (list pyval))
    (event_teams : gset string) : filter_message :=
  let '(filtered_entries, teams_filtered_out) :=
    filter_scouting_data_state scouting_data event_teams in
  if decide (teams_filtered_out ≠ ∅)
  then FilteredOut
         (Z.of_nat (length filtered_entries) - Z.of_nat (length scouting_data))%Z
         (filter (λ t, t ≠ "") teams_filtered_out)
  else NothingFiltered.

(** An entry the filter keeps. *)
Definition kept (event_teams : gset string) (entry : list pyval) : Prop :=
  is_header entry = true
  ∨ ∃ v, entry !! 4 = Some v ∧ team_field v ∈ event_teams.

#[global] Instance kept_dec event_teams entry : Decision (kept event_teams entry).
Proof.
  unfold kept. destruct (is_header entry); [left; by left|].
  destruct (entry !! 4) as [v|].
  - destruct (decide (team_field v ∈ event_teams)); [left; right; eauto|].
    right. intros [?|(v' & [= <-] & ?)]; done.
  - right. intros [?|(v' & ? & ?)]; done.
Defined.

(** ** Raw mappings used as examples *)

Definition events_abcd : list (string * list Z) :=
  [("A", [1]); ("B", [1; 2]); ("C", [2]); ("D", [3])]%Z.

Definition events_triangle : list (string * list Z) :=
  [("A", [1; 2]); ("B", [1; 3]); ("C", [2; 3])]%Z.

Definition events_tie : list (string * list Z) := [("A", [2; 1])]%Z.

Definition events_zero : list (string * list Z) := [("A", [1; 0]); ("B", [1])]%Z.


Definition events_order1 : list (string * list Z) := [("A", [1]); ("B", [2])]%Z.

Definition events_order2 : list (string * list Z) := [("B", [2]); ("A", [1])]%Z.

Definition events_late1 : list (string * list Z) :=
  [("A", [1; 2]); ("B", [1]); ("C", [2])]%Z.

Definition events_late2 : list (string * list Z) :=
  [("A", [1; 2]); ("C", [2]); ("B", [1])]%Z.

Definition scouting_sample : list (list pyval) :=
  [ [PyStr "id"; PyStr "matchNumber"; PyStr "alliance"; PyStr "scouterInitials";
     PyStr "selectTeam"; PyStr "startPoses0"];
    [PyStr "abc123def456"; PyInt 1; PyStr "red"; PyStr "JD"; PyStr "1234"; PyStr "0"];
    [PyStr "ghi789jkl012"; PyInt 2; PyStr "red"; PyStr "JD"; PyStr "9999"; PyStr "2"];
    [PyStr "short"; PyInt 2];
    [PyStr "vwx234yza567"; PyInt 4; PyStr "blue"; PyStr "SM"; PyInt 5678; PyNone];
    [PyStr "none"; PyInt 4; PyStr "blue"; PyStr "SM"; PyNone; PyNone] ]%Z.

(** ** The examples of the specification, run on the embedding *)


Example index_abcd :
  find_team_coverage events_abcd 10 None None
  = [(1, ["A"; "B"]); (2, ["B"; "C"]); (3, ["D"])]%Z.
Proof. reflexivity. Qed.

Example selector_abcd :
  greedy_set_cover_with_required_team events_abcd (Some 1%Z) 10 None None
  = ([1; 2; 3]%Z, 3).
Proof. vm_compute. reflexivity. Qed.

Example explorer_abcd :
  find_alternative_solutions events_abcd (Some 1%Z) 5 10 None None
  = Some [([1; 2; 3]%Z, 3)].
Proof. vm_compute. reflexivity. Qed.

(** ** Facts about the coverage index *)

Section IndexFacts.

Lemma defaultdict_append_keys d team event_name :
  (defaultdict_append d team event_name).*1
  = d.*1 ++ (if decide (team ∈ d.*1) then [] else [team]).
Proof.
  induction d as [|[k v] d IH]; [done|].
  cbn [defaultdict_append]. destruct (decide (k = team)) as [->|Hne];
    rewrite !fmap_cons; cbn [fst].
  - rewrite decide_True by set_solver. by rewrite app_nil_r.
  - rewrite IH. cbn [app]. f_equal. f_equal.
    destruct (decide (team ∈ d.*1)) as [Hin|Hin].
    + by rewrite decide_True by set_solver.
    + rewrite decide_False; [done|]. set_solver.
Qed.

Lemma defaultdict_append_getitem d team event_name t :
  dict_getitem (defaultdict_append d team event_name) t
  = if decide (team = t)
    then Some (default [] (dict_getitem d t) ++ [event_name])
    else dict_getitem d t.
Proof.
  induction d as [|[k v] d IH]; simpl.
  - destruct (decide (team = t)); simpl; by repeat case_decide.
  - destruct (decide (k = team)) as [->|Hne]; simpl.
    + destruct (decide (team = t)); simpl; [done|done].
    + rewrite IH. destruct (decide (k = t)) as [->|?]; [|done].
      by rewrite decide_False by done.
Qed.

Lemma dict_getitem_is_Some {V} (d : list (Z * V)) t :
  is_Some (dict_getitem d t) ↔ t ∈ d.*1.
Proof.
  induction d as [|[k v] d IH]; simpl.
  - split; [by intros [? ?]|by intros ?%elem_of_nil].
  - destruct (decide (k = t)) as [->|?].
    + split; [set_solver|eauto].
    + rewrite IH. set_solver.
Qed.

Lemma dict_getitem_None {V} (d : list (Z * V)) t :
  dict_getitem d t = None ↔ t ∉ d.*1.
Proof. rewrite <- dict_getitem_is_Some, eq_None_not_Some. done. Qed.

Lemma dict_getitem_elem_of {V} (d : list (Z * V)) t v :
  dict_getitem d t = Some v → (t, v) ∈ d.
Proof.
  induction d as [|[k w] d IH]; simpl; [done|].
  destruct (decide (k = t)) as [->|?]; [intros [= ->]; set_solver|].
  intros ?%IH. set_solver.
Qed.

Lemma dict_getitem_wf {V} (d : list (Z * V)) t v :
  dict_wf d → (t, v) ∈ d → dict_getitem d t = Some v.
Proof.
  unfold dict_wf. induction d as [|[k w] d IH]; simpl.
  - by intros _ ?%elem_of_nil.
  - intros [Hk Hd]%NoDup_cons [Heq|Hin]%elem_of_cons.
    + injection Heq as -> ->. by rewrite decide_True.
    + rewrite decide_False; [by apply IH|].
      intros ->. apply Hk. apply list_elem_of_fmap. by exists (t, v).
Qed.

Context (max_team_number : Z) (excluded_teams included_teams : list Z).

Lemma add_teams_keys event_name teams d t :
  t ∈ (add_teams max_team_number excluded_teams included_teams event_name teams d).*1
  ↔ t ∈ d.*1
    ∨ (t ∈ teams ∧ eligible max_team_number excluded_teams included_teams t = true).
Proof.
  unfold add_teams. revert d.
  induction teams as [|x teams IH]; intros d; simpl; [set_solver|].
  rewrite IH. destruct (eligible _ _ _ x) eqn:He.
  - rewrite defaultdict_append_keys, elem_of_app.
    destruct (decide (x ∈ d.*1)); set_solver.
  - split; [set_solver|]. intros [?|[[->|?]%elem_of_cons ?]]; [by left|congruence|].
    right. done.
Qed.

Lemma add_events_keys events d t :
  t ∈ (add_events max_team_number excluded_teams included_teams events d).*1
  ↔ t ∈ d.*1
    ∨ ∃ event_name teams, (event_name, teams) ∈ events ∧ t ∈ teams
        ∧ eligible max_team_number excluded_teams included_teams t = true.
Proof.
  unfold add_events. revert d.
  induction events as [|[e teams] events IH]; intros d; simpl.
  - split; [by left|]. intros [?|(? & ? & ?%elem_of_nil & _)]; done.
  - rewrite IH, add_teams_keys. split.
    + intros [[?|[? ?]]|(e' & ts' & ? & ? & ?)]; [by left|right..].
      * exists e, teams. set_solver.
      * exists e', ts'. set_solver.
    + intros [?|(e' & ts' & [Heq|?]%elem_of_cons & ? & ?)]; [by left; left| |].
      * injection Heq as -> ->. left. by right.
      * right. by exists e', ts'.
Qed.

Lemma add_teams_wf event_name teams d :
  dict_wf d →
  dict_wf (add_teams max_team_number excluded_teams included_teams event_name teams d).
Proof.
  unfold add_teams, dict_wf. revert d.
  induction teams as [|x teams IH]; intros d Hd; simpl; [done|].
  apply IH. destruct (eligible _ _ _ x); [|done].
  rewrite defaultdict_append_keys.
  destruct (decide (x ∈ d.*1)); [by rewrite app_nil_r|].
  apply NoDup_app. split_and!; [done| |apply NoDup_singleton].
  intros y ? ->%list_elem_of_singleton. done.
Qed.

Lemma add_events_wf events d :
  dict_wf d →
  dict_wf (add_events max_team_number excluded_teams included_teams events d).
Proof.
  unfold add_events. revert d.
  induction events as [|[e teams] events IH]; intros d Hd; simpl; [done|].
  by apply IH, add_teams_wf.
Qed.

End IndexFacts.

Lemma find_team_coverage_add_events events max_team_number excluded_teams included_teams :
  find_team_coverage events max_team_number excluded_teams included_teams
  = add_events max_team_number (or_empty excluded_teams) (or_empty included_teams)
      events [].
Proof. reflexivity. Qed.

(** The index is a dictionary: no team is a key twice. *)
Lemma find_team_coverage_wf events max_team_number excluded_teams included_teams :
  dict_wf (find_team_coverage events max_team_number excluded_teams included_teams).
Proof.
  rewrite find_team_coverage_add_events. apply add_events_wf. apply NoDup_nil_2.
Qed.

(** C4. A team is a key of the index built by [find_team_coverage] exactly
    when it occurs in the team list of some event, is not in the exclusion
    list, and is at most the threshold or in the inclusion list; hence a
    team that is both excluded and included is never a key. *)
Theorem C4_index_keys_eligibility :
  ∀ (events : list (string * list Z)) (max_team_number : Z)
    (excluded_teams included_teams : option (list Z)) (team : Z),
    let index :=
      find_team_coverage events max_team_number excluded_teams included_teams in
    (team ∈ index.*1
     ↔ (∃ event_name teams, (event_name, teams) ∈ events ∧ team ∈ teams)
       ∧ (team ∉ or_empty excluded_teams)
       ∧ ((team ≤ max_team_number)%Z ∨ team ∈ or_empty included_teams))
    ∧ (is_Some (dict_getitem index team) ↔ team ∈ index.*1)
    ∧ (team ∈ or_empty excluded_teams → team ∈ or_empty included_teams →
       team ∉ index.*1).
Proof.
  intros events mx ex inc team index.
  assert (Hkeys : team ∈ index.*1
     ↔ (∃ event_name teams, (event_name, teams) ∈ events ∧ team ∈ teams)
       ∧ (team ∉ or_empty ex)
       ∧ ((team ≤ mx)%Z ∨ team ∈ or_empty inc)).
  { subst index. rewrite find_team_coverage_add_events, add_events_keys.
    unfold eligible. split.
    - intros [?%elem_of_nil|(e & ts & ? & ? & He)]; [done|].
      apply bool_decide_eq_true in He as [? ?]. eauto 10.
    - intros ((e & ts & ? & ?) & ? & ?). right. exists e, ts.
      split_and!; [done..|]. by apply bool_decide_eq_true. }
  split_and!; [done|apply dict_getitem_is_Some|].
  intros Hex _. rewrite Hkeys. tauto.
Qed.

(** ** Facts about the scan for the best remaining team *)

Section ScanSpec.
Variables (sel : list Z) (unc : gset string).

Lemma scan_inv_snoc tc st item :
  scan_inv sel unc tc st →
scan_inv sel unc (tc ++ [item]) (scan_step sel unc st item).
Proof.
  destruct st as [[[b|] c] e], item as [t tevs]; unfold scan_step; simpl.
  - intros (i & evs & (Hi & Hb & Hpos & Hmax) & -> & ->).
    fold (marginal_coverage unc evs) in *.
    fold (marginal_coverage unc tevs).
    destruct (decide (t ∈ sel)) as [Ht|Ht]; [|case_decide as Hlt].
    + exists i, evs. split_and!; [|done..]. split_and!; [|done..|].
      { by apply lookup_app_l_Some. }
      intros j t' evs' [Hj|[_ Hj]]%lookup_app_Some; [by eapply Hmax|].
      apply list_lookup_singleton_Some in Hj as [_ [= <- <-]]. done.
    + exists (length tc), tevs. split_and!; [|done..]. split_and!.
      * by rewrite lookup_app_r, Nat.sub_diag.
      * done.
      * lia.
      * intros j t' evs' [Hj|[Hge Hj]]%lookup_app_Some Ht'.
        { destruct (Hmax _ _ _ Hj Ht'). lia. }
        apply list_lookup_singleton_Some in Hj as [Hj [= <- <-]].
        split; [done|lia].
    + exists i, evs. split_and!; [|done..]. split_and!; [|done..|].
      { by apply lookup_app_l_Some. }
      intros j t' evs' [Hj|[Hge Hj]]%lookup_app_Some Ht'; [by eapply Hmax|].
      apply list_lookup_singleton_Some in Hj as [Hj [= <- <-]].
      apply lookup_lt_Some in Hi. split; lia.
  - intros (-> & -> & Hno).
    fold (marginal_coverage unc tevs).
    destruct (decide (t ∈ sel)) as [Ht|Ht]; [|case_decide as Hlt].
    + split_and!; [done..|]. intros t' evs' [?|Hin]%elem_of_app ?; [by eapply Hno|].
      apply list_elem_of_singleton in Hin as [= -> ->]. done.
    + exists (length tc), tevs. split_and!; [|done..]. split_and!.
      * by rewrite lookup_app_r, Nat.sub_diag.
      * done.
      * done.
      * intros j t' evs' [Hj|[Hge Hj]]%lookup_app_Some Ht'.
        { apply list_elem_of_lookup_2 in Hj. rewrite (Hno _ _ Hj Ht'). lia. }
        apply list_lookup_singleton_Some in Hj as [Hj [= <- <-]].
        split; [done|lia].
    + split_and!; [done..|]. intros t' evs' [?|Hin]%elem_of_app ?; [by eapply Hno|].
      apply list_elem_of_singleton in Hin as [= -> ->]. lia.
Qed.

Lemma scan_inv_fold tc pre st :
  scan_inv sel unc pre st →
scan_inv sel unc (pre ++ tc) (fold_left (scan_step sel unc) tc st).
Proof.
  revert pre st. induction tc as [|item tc IH]; intros pre st Hst; simpl.
  - by rewrite app_nil_r.
  - replace (pre ++ item :: tc) with ((pre ++ [item]) ++ tc)
      by by rewrite <- app_assoc.
    by apply IH, scan_inv_snoc.
Qed.

Lemma find_best_inv tc : scan_inv sel unc tc (find_best tc sel unc).
Proof.
  apply (scan_inv_fold tc [] (None, 0, ∅)). split_and!; [done..|].
  by intros ?? ?%elem_of_nil.
Qed.

(** The explorer's scan keeps the first two components of the selector's. *)
Lemma scan_fold_fst tc (st : option Z * nat * gset string) :
  fold_left (scan_step_team_only sel unc) tc st.1
  = (fold_left (scan_step sel unc) tc st).1.
Proof.
  revert st. induction tc as [|[t evs] tc IH]; intros st; simpl; [done|].
  rewrite <- IH. f_equal. destruct st as [[bt bc] be]; simpl.
  destruct (decide (t ∈ sel)); [done|]. by case_decide.
Qed.

Lemma find_best_team_find_best tc :
  find_best_team tc sel unc = (find_best tc sel unc).1.
Proof. apply (scan_fold_fst tc (None, 0, ∅)). Qed.
End ScanSpec.

(** ** Facts about the greedy loops *)

Lemma greedy_loop_eq tc sel unc :
  greedy_loop tc sel unc
  = if decide (unc = ∅) then (sel, unc)
    else match find_best tc sel unc with
         | (None, _, _) => (sel, unc)
         | (Some best_team, _, best_events) =>
             greedy_loop tc (sel ++ [best_team]) (unc ∖ best_events)
         end.
Proof.
  simp greedy_loop. destruct (decide (unc = ∅)); simpl; [done|].
  unfold inspect. by destruct (find_best tc sel unc) as [[[b|] c] e] eqn:Hf.
Qed.

Lemma explorer_loop_eq tc sel unc :
  explorer_loop tc sel unc
  = if decide (unc = ∅) then Some (sel, unc)
    else match find_best_team tc sel unc with
         | (None, _) => Some (sel, unc)
         | (Some best_team, _) =>
             team_events ← dict_getitem tc best_team;
             explorer_loop tc (sel ++ [best_team])
               (unc ∖ (list_to_set team_events ∩ unc))
         end.
Proof.
  simp explorer_loop. destruct (decide (unc = ∅)); simpl; [done|].
  unfold inspect. by destruct (find_best_team tc sel unc) as [[b|] c] eqn:Hf.
Qed.

Section LoopFacts.
Variable tc : list (Z * list string).

(** The selector's loop returns, and what it returns is the end of a run. *)
Lemma greedy_loop_run sel unc :
  ∃ n, greedy_run tc sel unc n (greedy_loop tc sel unc).1 (greedy_loop tc sel unc).2.
Proof.
  remember (unselected tc sel) as m eqn:Hm. revert sel unc Hm.
  induction m as [m IH] using lt_wf_ind. intros sel unc ->.
  rewrite greedy_loop_eq. destruct (decide (unc = ∅)) as [Hu|Hu]; simpl.
  { exists 0. by constructor. }
  destruct (find_best tc sel unc) as [[[b|] c] e] eqn:Hf; simpl.
  - destruct (IH _ (find_best_unselected _ _ _ _ _ _ Hf) (sel ++ [b]) (unc ∖ e) eq_refl)
      as [n Hn].
    exists (S n). by eapply greedy_run_round.
  - exists 0. by eapply greedy_run_break.
Qed.

Lemma greedy_run_fun sel unc n sel' unc' :
  greedy_run tc sel unc n sel' unc' → greedy_loop tc sel unc = (sel', unc').
Proof.
  induction 1 as [sel unc Hu|sel unc c e Hu Hf|sel unc b c e n sel' unc' Hu Hf _ IH];
    rewrite greedy_loop_eq.
  - by rewrite decide_True.
  - by rewrite decide_False, Hf.
  - by rewrite decide_False, Hf.
Qed.

(** A round appends one team that was not selected, and takes at least
    one event out of [uncovered_events]. *)
Lemma find_best_round sel unc b c e :
  find_best tc sel unc = (Some b, c, e) →
  b ∈ tc.*1 ∧ (b ∉ sel) ∧ e ⊆ unc ∧ 0 < size e ∧ c = size e
  ∧ size (unc ∖ e) < size unc
  ∧ unselected tc (sel ++ [b]) < unselected tc sel.
Proof.
  intros Hf. pose proof (find_best_inv sel unc tc) as Hinv.
  rewrite Hf in Hinv. destruct Hinv as (i & evs & (Hi & Hb & Hpos & _) & -> & ->).
  assert (b ∈ tc.*1).
  { apply list_elem_of_fmap. exists (b, evs). split; [done|].
    by eapply list_elem_of_lookup_2. }
  unfold marginal_coverage in Hpos.
  split_and!; [done|done|set_solver|done|done| |by apply unselected_snoc_lt].
  rewrite size_difference by set_solver. 
  assert (size (list_to_set evs ∩ unc) ≤ size unc) by (apply subseteq_size; set_solver).
  lia.
Qed.

Lemma greedy_run_facts sel unc n sel' unc' :
  greedy_run tc sel unc n sel' unc' →
  (∃ picks, sel' = sel ++ picks ∧ length picks = n
            ∧ NoDup picks ∧ (∀ t, t ∈ picks → t ∈ tc.*1 ∧ t ∉ sel))
  ∧ n + size unc' ≤ size unc
  ∧ n + unselected tc sel' ≤ unselected tc sel
  ∧ unc' ⊆ unc.
Proof.
  induction 1 as [sel unc Hu|sel unc c e Hu Hf
                 |sel unc b c e n sel' unc' Hu Hf _ IH].
  1,2: split_and!; [|simpl; lia..|done];
       exists []; split_and!; [by rewrite app_nil_r|done|constructor|];
       by intros ? ?%elem_of_nil.
  destruct IH as ((picks & -> & <- & Hnd & Hin) & Hsz & Hun & Hsub).
  apply find_best_round in Hf as (Hb & Hnb & He & Hpos & _ & Hlt & Hlt').
  split_and!; [|simpl; lia..|set_solver].
  exists (b :: picks). split_and!.
  - by rewrite <- app_assoc.
  - done.
  - constructor; [|done]. intros Hbp. apply Hin in Hbp as [_ Hbp]. set_solver.
  - intros t [->|Ht]%elem_of_cons; [done|].
    apply Hin in Ht as [? Ht]. split; [done|set_solver].
Qed.

Hypothesis tc_wf : dict_wf tc.

Lemma find_best_getitem sel unc b c e :
  find_best tc sel unc = (Some b, c, e) →
  ∃ evs, dict_getitem tc b = Some evs ∧ e = list_to_set evs ∩ unc.
Proof.
  intros Hf. pose proof (find_best_inv sel unc tc) as Hinv.
  rewrite Hf in Hinv. destruct Hinv as (i & evs & (Hi & _) & -> & _).
  exists evs. split; [|done]. apply dict_getitem_wf; [done|].
  by eapply list_elem_of_lookup_2.
Qed.

(** On a dictionary, the explorer's loop is the selector's loop. *)
Lemma greedy_run_explorer_run sel unc n sel' unc' :
  greedy_run tc sel unc n sel' unc' → explorer_run tc sel unc n sel' unc'.
Proof.
  induction 1 as [sel unc Hu|sel unc c e Hu Hf
                 |sel unc b c e n sel' unc' Hu Hf _ IH].
  - by constructor.
  - eapply explorer_run_break; [done|]. by rewrite find_best_team_find_best, Hf.
  - destruct (find_best_getitem _ _ _ _ _ Hf) as (evs & Hg & ->).
    eapply explorer_run_round; [done| |done|done].
    by rewrite find_best_team_find_best, Hf.
Qed.

Lemma explorer_run_fun sel unc n sel' unc' :
  explorer_run tc sel unc n sel' unc' → explorer_loop tc sel unc = Some (sel', unc').
Proof.
  induction 1 as [sel unc Hu|sel unc c Hu Hf
                 |sel unc b c evs n sel' unc' Hu Hf Hg _ IH];
    rewrite explorer_loop_eq.
  - by rewrite decide_True.
  - by rewrite decide_False, Hf.
  - rewrite decide_False, Hf by done. by rewrite Hg.
Qed.

Lemma explorer_loop_greedy_loop sel unc :
  explorer_loop tc sel unc = Some (greedy_loop tc sel unc).
Proof.
  destruct (greedy_loop_run sel unc) as [n Hn].
  apply greedy_run_explorer_run, explorer_run_fun in Hn.
  by rewrite Hn, <- surjective_pairing.
Qed.
End LoopFacts.

(** ** Facts about the selector *)

Section SeedFacts.
Variable tc : list (Z * list string).

Lemma seed_required_falsy r s sel unc :
  truthy r = false → seed_required tc r s sel unc = (sel, unc).
Proof. unfold seed_required. destruct r; [|done]. by intros ->. Qed.

Lemma seed_required_absent z s sel unc :
  z ∉ tc.*1 → seed_required tc (Some z) s sel unc = (sel, unc).
Proof.
  intros Hz%dict_getitem_None. unfold seed_required. rewrite Hz.
  by destruct (_ && _).
Qed.

Lemma seed_required_present z s sel unc evs :
  z ≠ 0%Z → Some z ≠ s → dict_getitem tc z = Some evs →
  seed_required tc (Some z) s sel unc = (sel ++ [z], unc ∖ list_to_set evs).
Proof.
  intros Hz Hs Hg. unfold seed_required, truthy.
  by rewrite Hg, !bool_decide_eq_true_2.
Qed.

Lemma seed_required_cases r s sel unc :
  seed_required tc r s sel unc = (sel, unc)
  ∨ ∃ z evs, r = Some z ∧ z ≠ 0%Z ∧ Some z ≠ s ∧ dict_getitem tc z = Some evs
      ∧ seed_required tc r s sel unc = (sel ++ [z], unc ∖ list_to_set evs).
Proof.
  destruct r as [z|]; [|by left]. unfold seed_required, truthy.
  destruct (bool_decide (z ≠ 0%Z)) eqn:Hz; [|by left].
  destruct (bool_decide (Some z ≠ s)) eqn:Hs; [|by left].
  destruct (dict_getitem tc z) as [evs|] eqn:Hg; [|by left].
  right. exists z, evs. apply bool_decide_eq_true in Hz, Hs. done.
Qed.

Lemma greedy_loop_picks sel unc :
  ∃ picks, (greedy_loop tc sel unc).1 = sel ++ picks
    ∧ NoDup picks ∧ (∀ t, t ∈ picks → t ∈ tc.*1 ∧ t ∉ sel).
Proof.
  destruct (greedy_loop_run tc sel unc) as [n Hn].
  apply greedy_run_facts in Hn as ((picks & ? & ? & ? & ?) & _). eauto.
Qed.
End SeedFacts.

Lemma selector_eq events required_team max_team_number excluded_teams included_teams :
  greedy_set_cover_with_required_team events required_team max_team_number
    excluded_teams included_teams
  = let tc := find_team_coverage events max_team_number excluded_teams included_teams in
    let st := seed_required tc required_team None [] (list_to_set events.*1) in
    let res := greedy_loop tc st.1 st.2 in
    (res.1, length res.1).
Proof.
  unfold greedy_set_cover_with_required_team. simpl.
  destruct (seed_required _ _ _ _ _) as [sel unc]; simpl.
  by destruct (greedy_loop _ sel unc).
Qed.

(** A non-zero required team that is a key of the index comes first. *)
Lemma selector_required_first events z max_team_number excluded_teams included_teams :
  z ≠ 0%Z →
  z ∈ (find_team_coverage events max_team_number excluded_teams included_teams).*1 →
  head (greedy_set_cover_with_required_team events (Some z) max_team_number
          excluded_teams included_teams).1 = Some z.
Proof.
  intros Hz [evs Hin]%dict_getitem_is_Some. rewrite selector_eq; cbv zeta.
  rewrite (seed_required_present _ z None [] _ evs) by done. simpl.
  destruct (greedy_loop_picks
    (find_team_coverage events max_team_number excluded_teams included_teams) [z]
    (list_to_set events.*1 ∖ list_to_set evs)) as (picks & -> & _). done.
Qed.

(** Every team of the selector's solution is a key of the index. *)
Lemma selector_teams_in_index events required_team max_team_number
    excluded_teams included_teams t :
  t ∈ (greedy_set_cover_with_required_team events required_team max_team_number
         excluded_teams included_teams).1 →
  t ∈ (find_team_coverage events max_team_number excluded_teams included_teams).*1.
Proof.
  rewrite selector_eq; cbv zeta.
  set (tc := find_team_coverage _ _ _ _). set (U := list_to_set events.*1).
  destruct (seed_required_cases tc required_team None [] U)
    as [->|(z & evs & _ & _ & _ & Hg & ->)]; simpl.
  - destruct (greedy_loop_picks tc [] U) as (picks & -> & _ & Hin).
    intros Ht. by apply Hin.
  - destruct (greedy_loop_picks tc [z] (U ∖ list_to_set evs)) as (picks & -> & _ & Hin).
    intros [Ht|Ht]%elem_of_app; [|by apply Hin].
    apply list_elem_of_singleton in Ht as ->. apply dict_getitem_is_Some. eauto.
Qed.



(** ** Facts about the explorer *)

Section ForEach.
Context {S A : Type} (body : S → A → option S).

Lemma for_each_inv (P : S → Prop) (l : list A) (s : S) :
  (∀ s x, P s → x ∈ l → ∃ s', body s x = Some s' ∧ P s') →
  P s → ∃ s', for_each body s l = Some s' ∧ P s'.
Proof.
  revert s. induction l as [|x l IH]; intros s Hbody Hs; simpl; [eauto|].
  destruct (Hbody s x Hs) as (s' & -> & Hs'); [set_solver|]. simpl.
  apply IH; [|done]. intros s1 y ? ?. apply Hbody; [done|set_solver].
Qed.

Lemma for_each_ext (body' : S → A → option S) (l : list A) (s : S) :
  (∀ s x, x ∈ l → body s x = body' s x) →
  for_each body s l = for_each body' s l.
Proof.
  revert s. induction l as [|x l IH]; intros s Hbody; simpl; [done|].
  rewrite <- Hbody by set_solver. destruct (body s x); simpl; [|done].
  apply IH. intros s1 y ?. apply Hbody. set_solver.
Qed.
End ForEach.

Lemma py_slice_to_take {A} (l : list A) (k : Z) : ∃ n, py_slice_to l k = take n l.
Proof. unfold py_slice_to. case_decide; eauto. Qed.

Lemma py_slice_to_elem_of {A} (l : list A) (k : Z) x :
  x ∈ py_slice_to l k → x ∈ l.
Proof.
  destruct (py_slice_to_take l k) as [n ->]. intros Hx.
  rewrite <- (take_drop n l). set_solver.
Qed.

Lemma already_found_spec solutions selected_teams :
  already_found solutions selected_teams = true
  ↔ ∃ sol, sol ∈ solutions
      ∧ (list_to_set sol.1 : gset Z) = list_to_set selected_teams.
Proof.
  unfold already_found. rewrite existsb_exists. split.
  - intros (sol & ?%list_elem_of_In & ?%bool_decide_eq_true). eauto.
  - intros (sol & ?%list_elem_of_In & ?). exists sol. by rewrite bool_decide_eq_true.
Qed.

Lemma distinct_team_sets_snoc solutions sol :
  distinct_team_sets solutions →
  already_found solutions sol.1 = false →
  distinct_team_sets (solutions ++ [sol]).
Proof.
  intros Hd Hnf. assert (Hnew : ∀ i a, solutions !! i = Some a →
    (list_to_set a.1 : gset Z) ≠ list_to_set sol.1).
  { intros i a Hi Heq. apply not_true_iff_false in Hnf. apply Hnf.
    apply already_found_spec. exists a. split; [|done].
    by eapply list_elem_of_lookup_2. }
  intros i j a b Hij [Hi|[Hi Hi']]%lookup_app_Some [Hj|[Hj Hj']]%lookup_app_Some.
  - by eapply Hd.
  - apply list_lookup_singleton_Some in Hj' as [_ <-]. by eapply Hnew.
  - apply list_lookup_singleton_Some in Hi' as [_ <-]. intros Heq.
    by eapply Hnew.
  - apply list_lookup_singleton_Some in Hi' as [? _].
    apply list_lookup_singleton_Some in Hj' as [? _]. lia.
Qed.

Lemma distinct_team_sets_take solutions n :
  distinct_team_sets solutions → distinct_team_sets (take n solutions).
Proof.
  intros Hd i j a b Hij [? _]%lookup_take_Some [? _]%lookup_take_Some.
  by eapply Hd.
Qed.

Section ExplorerFacts.
Variables (events : list (string * list Z)) (tc : list (Z * list string)).

Lemma all_covered_of_Some sel acc :
  (∀ t, t ∈ sel → t ∈ tc.*1) →
  all_covered_of tc sel acc = Some (acc ∪ covered_events tc sel).
Proof.
  unfold covered_events. revert acc.
  induction sel as [|t sel IH]; intros acc Hin; simpl.
  - f_equal. set_solver.
  - destruct (dict_getitem tc t) as [evs|] eqn:Hg; simpl.
    + rewrite IH by set_solver. f_equal. set_solver.
    + apply dict_getitem_None in Hg. exfalso. apply Hg, Hin. set_solver.
Qed.

(** The round of [start_team] enters its loop with distinct teams, all of
    them keys of the index. *)
Lemma start_state_teams r s :
  NoDup (start_state events tc r s).1
  ∧ (∀ t, t ∈ (start_state events tc r s).1 → t ∈ tc.*1)
  ∧ (start_state events tc r s).2 ⊆ list_to_set events.*1.
Proof.
  unfold start_state.
  destruct (seed_required_cases tc r (Some s) [] (list_to_set events.*1))
    as [->|(z & evs & _ & _ & Hzs & Hg & ->)].
  - destruct (dict_getitem tc s) as [sevs|] eqn:Hs; simpl.
    + split_and!; [apply NoDup_singleton| |set_solver].
      intros t ->%list_elem_of_singleton. apply dict_getitem_is_Some. eauto.
    + split_and!; [constructor|by intros ? ?%elem_of_nil|done].
  - assert (z ∈ tc.*1) by (apply dict_getitem_is_Some; eauto).
    destruct (dict_getitem tc s) as [sevs|] eqn:Hs; simpl.
    + split_and!; [|  |set_solver].
      * apply NoDup_cons. split; [|apply NoDup_singleton].
        intros ->%list_elem_of_singleton. done.
      * intros t [-> | ->%list_elem_of_singleton]%elem_of_cons; [done|].
        apply dict_getitem_is_Some. eauto.
    + split_and!; [apply NoDup_singleton| |set_solver].
      by intros t ->%list_elem_of_singleton.
Qed.

Lemma round_teams_in_index r s t : t ∈ round_teams events tc r s → t ∈ tc.*1.
Proof.
  unfold round_teams.
  destruct (greedy_loop_picks tc (start_state events tc r s).1
              (start_state events tc r s).2) as (picks & -> & _ & Hin).
  intros [?|?]%elem_of_app; [by eapply (start_state_teams r s)|by apply Hin].
Qed.

Lemma round_teams_NoDup r s : NoDup (round_teams events tc r s).
Proof.
  unfold round_teams.
  destruct (greedy_loop_picks tc (start_state events tc r s).1
              (start_state events tc r s).2) as (picks & -> & Hnd & Hin).
  apply NoDup_app. split_and!; [apply (start_state_teams r s)| |done].
  intros t Ht Ht'. apply Hin in Ht' as [_ Ht']. done.
Qed.

Hypothesis tc_wf : dict_wf tc.

(** On a dictionary the body of the explorer's [for] loop never raises; it
    leaves the solutions as they are or appends the teams of the round. *)
Lemma try_start_team_eq r sols s :
  try_start_team events tc r sols s
  = Some (if bool_decide (Some s = r) && bool_decide (0 < length sols) then sols
          else if bool_decide (size (covered_events tc (round_teams events tc r s))
                               = length events)
                  && negb (already_found sols (round_teams events tc r s))
               then sols ++ [(round_teams events tc r s,
                              length (round_teams events tc r s))]
               else sols).
Proof.
  unfold try_start_team. destruct (_ && _); [done|].
  pose proof (round_teams_in_index r s) as Hin. unfold round_teams in *.
  destruct (start_state events tc r s) as [sel unc]; simpl in *.
  rewrite explorer_loop_greedy_loop by done. simpl.
  destruct (greedy_loop tc sel unc) as [sel' unc']; simpl in *.
  rewrite all_covered_of_Some by done. simpl.
  rewrite (left_id_L ∅ (∪)).
  destruct (bool_decide (size _ = _)); simpl; [|done].
  by destruct (already_found sols sel').
Qed.
End ExplorerFacts.

(** The index only lists events of the raw mapping. *)
Section IndexEvents.
Context (max_team_number : Z) (excluded_teams included_teams : list Z).

Lemma defaultdict_append_events d team event_name k v x :
  (k, v) ∈ defaultdict_append d team event_name → x ∈ v →
  x = event_name ∨ ∃ v', (k, v') ∈ d ∧ x ∈ v'.
Proof.
  induction d as [|[k' w] d IH]; simpl.
  - intros [= -> ->]%list_elem_of_singleton ->%list_elem_of_singleton. by left.
  - destruct (decide (k' = team)) as [->|?].
    + intros [[= -> ->]|?]%elem_of_cons Hx.
      * apply elem_of_app in Hx as [? | ->%list_elem_of_singleton]; [|by left].
        right. exists w. set_solver.
      * right. exists v. set_solver.
    + intros [[= -> ->]|Hin]%elem_of_cons Hx.
      * right. exists w. set_solver.
      * destruct (IH Hin Hx) as [?|(v' & ? & ?)]; [by left|].
        right. exists v'. set_solver.
Qed.

Lemma add_teams_events event_name teams d k v x :
  (k, v) ∈ add_teams max_team_number excluded_teams included_teams
             event_name teams d →
  x ∈ v → x = event_name ∨ ∃ v', (k, v') ∈ d ∧ x ∈ v'.
Proof.
  unfold add_teams. revert d.
  induction teams as [|t teams IH]; intros d; simpl; [by eauto|].
  intros Hin Hx. destruct (IH _ Hin Hx) as [?|(v' & Hin' & Hx')]; [by left|].
  destruct (eligible _ _ _ t); [|by eauto].
  by eapply defaultdict_append_events.
Qed.

Lemma add_events_events events d k v x :
  (k, v) ∈ add_events max_team_number excluded_teams included_teams events d →
  x ∈ v → x ∈ events.*1 ∨ ∃ v', (k, v') ∈ d ∧ x ∈ v'.
Proof.
  unfold add_events. revert d.
  induction events as [|[e teams] events IH]; intros d; simpl; [by eauto|].
  intros Hin Hx. destruct (IH _ Hin Hx) as [?|(v' & Hin' & Hx')]; [left; set_solver|].
  destruct (add_teams_events _ _ _ _ _ _ Hin' Hx') as [->|?]; [|by right].
  left. set_solver.
Qed.
End IndexEvents.

Lemma find_team_coverage_events events max_team_number excluded_teams included_teams
    team team_events event_name :
  (team, team_events)
    ∈ find_team_coverage events max_team_number excluded_teams included_teams →
  event_name ∈ team_events → event_name ∈ events.*1.
Proof.
  rewrite find_team_coverage_add_events. intros Hin Hx.
  destruct (add_events_events _ _ _ _ _ _ _ _ Hin Hx) as [?|(? & ?%elem_of_nil & _)];
    done.
Qed.

Lemma covered_events_universe events max_team_number excluded_teams included_teams sel :
  covered_events
    (find_team_coverage events max_team_number excluded_teams included_teams) sel
  ⊆ list_to_set events.*1.
Proof.
  unfold covered_events. intros x (X & HX & Hx)%elem_of_union_list.
  apply list_elem_of_fmap in HX as (t & -> & _).
  destruct (dict_getitem _ t) as [evs|] eqn:Hg; simpl in Hx; [|set_solver].
  apply dict_getitem_elem_of in Hg. apply elem_of_list_to_set in Hx.
  apply elem_of_list_to_set. by eapply find_team_coverage_events.
Qed.

Lemma size_list_to_set_le (l : list string) :
  size (list_to_set l : gset string) ≤ length l.
Proof.
  induction l as [|x l IH]; [done|].
  rewrite list_to_set_cons, size_union_alt, size_singleton. cbn [length].
  assert (size (list_to_set l ∖ {[x]} : gset string)
          ≤ size (list_to_set l : gset string))
    by (apply subseteq_size; set_solver).
  lia.
Qed.

(** A sequence of teams that passes the test of line 239 covers every
    event of the raw mapping. *)
Lemma covered_events_complete events max_team_number excluded_teams included_teams sel :
  size (covered_events
          (find_team_coverage events max_team_number excluded_teams included_teams)
          sel) = length events →
  covered_events
    (find_team_coverage events max_team_number excluded_teams included_teams) sel
  = list_to_set events.*1.
Proof.
  intros Hsz. apply set_subseteq_size_eq; [apply covered_events_universe|].
  rewrite Hsz. etrans; [apply size_list_to_set_le|]. by rewrite length_fmap.
Qed.

(** What the explorer accumulates. *)
Section ExplorerResult.
Context (events : list (string * list Z)) (required_team : option Z)
  (max_team_number : Z) (excluded_teams included_teams : option (list Z)).

Local Abbreviation tc :=
  (find_team_coverage events max_team_number excluded_teams included_teams).
Local Abbreviation explorer_inv :=
  (explorer_inv events required_team max_team_number excluded_teams included_teams).
Local Abbreviation solution1 :=
  (greedy_set_cover_with_required_team events required_team max_team_number
     excluded_teams included_teams).

Lemma explorer_inv_init : explorer_inv [solution1].
Proof.
  split_and!; [done| |].
  - intros [|i] [|j] a b Hij Hi Hj; simplify_eq/=.
  - intros [|i] sol Hi Hs; [lia|done].
Qed.

Lemma explorer_inv_step solutions start_team :
  explorer_inv solutions →
  ∃ solutions', try_start_team events tc required_team solutions start_team
                = Some solutions'
                ∧ explorer_inv solutions'.
Proof.
  intros (Hhd & Hd & Hc).
  rewrite try_start_team_eq by apply find_team_coverage_wf.
  eexists; split; [done|].
  destruct (_ && _); [done|].
  destruct (bool_decide (size _ = _)) eqn:Hsz; simpl; [|done].
  destruct (already_found _ _) eqn:Hnf; simpl; [done|].
  apply bool_decide_eq_true in Hsz. split_and!.
  - by destruct solutions.
  - by apply distinct_team_sets_snoc.
  - intros i sol Hi [Hs|[Hge Hs]]%lookup_app_Some; [by apply (Hc i)|].
    apply list_lookup_singleton_Some in Hs as [_ <-]. simpl. split_and!.
    + by apply covered_events_complete.
    + apply round_teams_in_index.
    + apply round_teams_NoDup.
    + done.
Qed.

Lemma explorer_accumulates seeds :
  ∃ solutions, for_each (try_start_team events tc required_team) [solution1] seeds
               = Some solutions
               ∧ explorer_inv solutions.
Proof.
  apply for_each_inv; [|apply explorer_inv_init].
  intros sols s Hs _. by apply explorer_inv_step.
Qed.

Lemma explorer_inv_take solutions n :
  explorer_inv solutions →
  distinct_team_sets (take n solutions)
  ∧ (0 < n → head (take n solutions) = Some solution1)
  ∧ ∀ i sol, 0 < i → take n solutions !! i = Some sol →
      covered_events tc sol.1 = list_to_set events.*1
      ∧ (∀ t, t ∈ sol.1 → t ∈ tc.*1) ∧ NoDup sol.1 ∧ sol.2 = length sol.1.
Proof.
  intros (Hhd & Hd & Hc). split_and!.
  - by apply distinct_team_sets_take.
  - intros Hn. destruct n; [lia|]. by destruct solutions.
  - intros i sol Hi [Hs _]%lookup_take_Some. by apply (Hc i).
Qed.

(** The explorer never raises [KeyError]: it returns a prefix of what it
    accumulated. *)
Lemma find_alternative_solutions_returns max_solutions :
  ∃ solutions n,
    find_alternative_solutions events required_team max_solutions
      max_team_number excluded_teams included_teams = Some (take n solutions)
    ∧ explorer_inv solutions
    ∧ ((0 ≤ max_solutions)%Z → n = Z.to_nat max_solutions).
Proof.
  unfold find_alternative_solutions. cbv zeta. rewrite app_nil_l.
  destruct (explorer_accumulates
    (py_slice_to (multi_event_teams tc required_team) max_solutions))
    as (sols & -> & Hinv). simpl.
  unfold py_slice_to. case_decide.
  - eexists _, _. split_and!; [done|done|lia].
  - eexists _, _. split_and!; [done|done|done].
Qed.
End ExplorerResult.

(** ** The returned list of solutions *)


Example explorer_triangle :
  find_alternative_solutions events_triangle (Some 1%Z) 5 12000 None None
  = Some [([1; 2]%Z, 2); ([1; 3]%Z, 2)].
Proof. vm_compute. reflexivity. Qed.

(** C1. The explorer returns a list in which every solution after the
    first covers all the events of the raw mapping (the union of the index
    entries of its teams is the set of all events) and has a set of teams
    different from that of every solution before it; so no two solutions of
    the list have the same set of teams. *)
Theorem C1_alternatives_complete_and_distinct :
  ∀ (events : list (string * list Z)) (required_team : option Z)
    (max_solutions max_team_number : Z)
    (excluded_teams included_teams : option (list Z)),
    let index :=
      find_team_coverage events max_team_number excluded_teams included_teams in
    ∃ solutions,
      find_alternative_solutions events required_team max_solutions
        max_team_number excluded_teams included_teams = Some solutions
      ∧ (∀ i sol, 0 < i → solutions !! i = Some sol →
           covered_events index sol.1 = list_to_set events.*1
           ∧ ∀ j sol', j < i → solutions !! j = Some sol' →
               (list_to_set sol'.1 : gset Z) ≠ list_to_set sol.1)
      ∧ distinct_team_sets solutions.
Proof.
  intros events r K mx ex inc index.
  destruct (find_alternative_solutions_returns events r mx ex inc K)
    as (sols & n & -> & Hinv & _).
  apply (explorer_inv_take _ _ _ _ _ _ n) in Hinv as (Hd & _ & Hc).
  eexists; split_and!; [done| |done].
  intros i sol Hi Hs. split; [by apply (Hc i)|].
  intros j sol' Hj Hs'. apply (Hd j i); [lia|done..].
Qed.

(** C7, as the specification states it, fails for [max_solutions = 0]: the
    returned list is empty and has no first element. *)
Lemma C7_counterexample_zero_solutions :
  ¬ (∀ (events : list (string * list Z)) (required_team : option Z)
       (max_solutions max_team_number : Z)
       (excluded_teams included_teams : option (list Z)),
       ∃ solutions,
         find_alternative_solutions events required_team max_solutions
           max_team_number excluded_teams included_teams = Some solutions
         ∧ (Z.of_nat (length solutions) ≤ max_solutions)%Z
         ∧ head solutions
           = Some (greedy_set_cover_with_required_team events required_team
                     max_team_number excluded_teams included_teams)).
Proof.
  intros H. destruct (H events_abcd (Some 1%Z) 0%Z 10%Z None None)
    as (sols & Hs & _ & Hhd).
  vm_compute in Hs. injection Hs as <-. discriminate Hhd.
Qed.

(** C7, amended. For a bound [max_solutions ≥ 0] the explorer returns a
    list of at most [max_solutions] solutions; unless the bound is 0, when
    the list is empty, its first element is the selector's solution,
    whether or not that solution covers every event. *)
Theorem C7_at_most_K_solutions_selector_first :
  ∀ (events : list (string * list Z)) (required_team : option Z)
    (max_solutions max_team_number : Z)
    (excluded_teams included_teams : option (list Z)),
    (0 ≤ max_solutions)%Z →
    ∃ solutions,
      find_alternative_solutions events required_team max_solutions
        max_team_number excluded_teams included_teams = Some solutions
      ∧ (Z.of_nat (length solutions) ≤ max_solutions)%Z
      ∧ head solutions
        = if decide (max_solutions = 0%Z) then None
          else Some (greedy_set_cover_with_required_team events required_team
                       max_team_number excluded_teams included_teams).
Proof.
  intros events r K mx ex inc HK.
  destruct (find_alternative_solutions_returns events r mx ex inc K)
    as (sols & n & -> & Hinv & Hn).
  specialize (Hn HK) as ->.
  apply (explorer_inv_take _ _ _ _ _ _ (Z.to_nat K)) in Hinv as (_ & Hhd & _).
  eexists; split_and!; [done| |].
  - rewrite length_take. lia.
  - case_decide as HK0; [subst; done|]. apply Hhd. lia.
Qed.

Lemma C7_at_most_K_solutions_selector_first_witness :
  (0 ≤ 5)%Z
  ∧ ∃ solutions,
      find_alternative_solutions events_triangle (Some 1%Z) 5 12000 None None
      = Some solutions
      ∧ (Z.of_nat (length solutions) ≤ 5)%Z
      ∧ head solutions
        = if decide (5%Z = 0%Z) then None
          else Some (greedy_set_cover_with_required_team events_triangle
                       (Some 1%Z) 12000 None None).
Proof.
  split; [lia|].
  apply (C7_at_most_K_solutions_selector_first events_triangle (Some 1%Z) 5 12000
           None None).
  lia.
Defined.

(** ** Rounds of the greedy loops *)

Lemma selector_NoDup events required_team max_team_number excluded_teams included_teams :
  NoDup (greedy_set_cover_with_required_team events required_team max_team_number
           excluded_teams included_teams).1.
Proof.
  rewrite selector_eq; cbv zeta.
  set (tc := find_team_coverage _ _ _ _). set (U := list_to_set events.*1).
  destruct (seed_required_cases tc required_team None [] U)
    as [->|(z & evs & _ & _ & _ & Hg & ->)]; simpl.
  - by destruct (greedy_loop_picks tc [] U) as (picks & -> & ? & _).
  - destruct (greedy_loop_picks tc [z] (U ∖ list_to_set evs)) as (picks & -> & ? & Hin).
    simpl. apply NoDup_cons. split; [|done].
    intros Hz. apply Hin in Hz as [_ Hz]. set_solver.
Qed.

Lemma unselected_le tc sel : unselected tc sel ≤ length tc.
Proof. unfold unselected. apply length_filter. Qed.

Lemma seed_required_subseteq tc r s sel unc :
  (seed_required tc r s sel unc).2 ⊆ unc.
Proof.
  destruct (seed_required_cases tc r s sel unc) as [->|(z & evs & _ & _ & _ & _ & ->)];
    set_solver.
Qed.

(** C10. Both greedy loops terminate. A round that appends a team appends
    one that was not selected and that covers an uncovered event, so the
    set of uncovered events shrinks; otherwise the loop is left. Counting
    the rounds that append a team, the selector's loop and the loop of
    every round of the explorer make at most [min] (number of teams of the
    index, number of events) of them, and the sequences of teams they
    return, as those of the returned solutions, have no repetition. *)
Theorem C10_greedy_loops_terminate :
  ∀ (events : list (string * list Z)) (required_team : option Z)
    (max_solutions max_team_number : Z)
    (excluded_teams included_teams : option (list Z)),
    let tc := find_team_coverage events max_team_number excluded_teams included_teams in
    let universe : gset string := list_to_set events.*1 in
    (∀ sel unc b c e,
       find_best tc sel unc = (Some b, c, e) →
       (b ∉ sel) ∧ 0 < c ∧ size (unc ∖ e) < size unc)
    ∧ (∀ sel unc b c,
         find_best_team tc sel unc = (Some b, c) →
         ∃ evs, dict_getitem tc b = Some evs ∧ (b ∉ sel) ∧ 0 < c
                ∧ size (unc ∖ (list_to_set evs ∩ unc)) < size unc)
    ∧ (let st := seed_required tc required_team None [] universe in
       ∃ n, greedy_run tc st.1 st.2 n
              (greedy_loop tc st.1 st.2).1 (greedy_loop tc st.1 st.2).2
            ∧ n ≤ length tc `min` size universe
            ∧ size universe ≤ length events
            ∧ NoDup (greedy_set_cover_with_required_team events required_team
                       max_team_number excluded_teams included_teams).1)
    ∧ (∀ start_team,
         let st := start_state events tc required_team start_team in
         ∃ n sel' unc',
           explorer_loop tc st.1 st.2 = Some (sel', unc')
           ∧ explorer_run tc st.1 st.2 n sel' unc'
           ∧ n ≤ length tc `min` size universe
           ∧ NoDup sel')
    ∧ (∃ solutions,
         find_alternative_solutions events required_team max_solutions
           max_team_number excluded_teams included_teams = Some solutions
         ∧ ∀ sol, sol ∈ solutions → NoDup sol.1).
Proof.
  intros events r K mx ex inc tc universe.
  assert (Hwf : dict_wf tc) by apply find_team_coverage_wf.
  assert (Hround : ∀ sel unc b c e, find_best tc sel unc = (Some b, c, e) →
    (b ∉ sel) ∧ 0 < c ∧ size (unc ∖ e) < size unc).
  { intros sel unc b c e Hf.
    apply find_best_round in Hf as (_ & ? & _ & ? & -> & ? & _). done. }
  split_and!.
  - done.
  - intros sel unc b c Hf. rewrite find_best_team_find_best in Hf.
    destruct (find_best tc sel unc) as [[b' c'] e] eqn:Hf'. simpl in Hf.
    injection Hf as -> ->.
    destruct (find_best_getitem tc Hwf _ _ _ _ _ Hf') as (evs & Hg & ->).
    exists evs. split; [done|]. by apply (Hround _ _ _ _ _ Hf').
  - intros st. destruct (greedy_loop_run tc st.1 st.2) as [n Hn].
    exists n. split; [done|].
    apply greedy_run_facts in Hn as (_ & Hsz & Hun & _).
    pose proof (unselected_le tc st.1).
    pose proof (subseteq_size _ _
      (seed_required_subseteq tc r None [] universe)) as Hst. fold st in Hst.
    split_and!; [lia| |apply selector_NoDup].
    subst universe. etrans; [apply size_list_to_set_le|]. by rewrite length_fmap.
  - intros s st. destruct (greedy_loop_run tc st.1 st.2) as [n Hn].
    exists n, (greedy_loop tc st.1 st.2).1, (greedy_loop tc st.1 st.2).2.
    rewrite <- surjective_pairing. split_and!.
    + by apply explorer_loop_greedy_loop.
    + by apply greedy_run_explorer_run.
    + apply greedy_run_facts in Hn as (_ & Hsz & Hun & _).
      pose proof (unselected_le tc st.1).
      destruct (start_state_teams events tc r s) as (_ & _ & Hst%subseteq_size).
      fold st universe in Hst. lia.
    + apply (round_teams_NoDup events tc r s).
  - destruct (find_alternative_solutions_returns events r mx ex inc K)
      as (sols & n & -> & (Hhd & _ & Hc) & _).
    eexists; split; [done|]. intros sol [i [Hi _]%lookup_take_Some]%list_elem_of_lookup.
    destruct i as [|i].
    + destruct sols as [|sol1 sols]; simplify_eq/=. apply selector_NoDup.
    + apply (Hc (S i)); [lia|done].
Qed.

(** ** Which team a round chooses *)


Example index_tie :
  find_team_coverage events_tie 12000 None None = [(2, ["A"]); (1, ["A"])]%Z.
Proof. reflexivity. Qed.

Example selector_tie :
  greedy_set_cover_with_required_team events_tie None 12000 None None = ([2]%Z, 1).
Proof. vm_compute. reflexivity. Qed.

(** C2, as the specification states it, fails: when two unselected teams
    tie for the largest marginal coverage the scan does not choose the
    smaller number. In the index of [events_tie] teams 2 and 1 both cover
    the one event, and team 2, met first, is chosen. *)
Lemma C2_counterexample_tie_not_smallest :
  ¬ (∀ (events : list (string * list Z)) (max_team_number : Z)
       (excluded_teams included_teams : option (list Z))
       (selected_teams : list Z) (uncovered_events : gset string)
       (best_team : Z) (best_coverage : nat) (best_events : gset string),
       let tc :=
         find_team_coverage events max_team_number excluded_teams included_teams in
       find_best tc selected_teams uncovered_events
       = (Some best_team, best_coverage, best_events) →
       ∀ team team_events, (team, team_events) ∈ tc → team ∉ selected_teams →
         (marginal_coverage uncovered_events team_events ≤ best_coverage)
         ∧ (marginal_coverage uncovered_events team_events = best_coverage →
            (best_team ≤ team)%Z)).
Proof.
  intros H.
  specialize (H events_tie 12000%Z None None [] {["A"]} 2%Z 1 {["A"]}).
  destruct (H eq_refl 1%Z ["A"]) as [_ Hle].
  - rewrite index_tie. set_solver.
  - by intros ?%elem_of_nil.
  - specialize (Hle eq_refl). lia.
Qed.

(** C2, amended. A round of either greedy loop appends the team its scan
    chooses, and the scan is the same in the selector and in the explorer.
    The scan chooses no team when no unselected team of the index covers an
    uncovered event. Otherwise it chooses an unselected team whose marginal
    coverage is positive and at least that of every unselected team; among
    the teams that tie for it, the chosen one is the first in the iteration
    order of the index, which is the order in which the teams first occur
    in the raw mapping. *)
Theorem C2_round_chooses_first_largest :
  ∀ (team_coverage : list (Z * list string)) (selected_teams : list Z)
    (uncovered_events : gset string),
    greedy_loop team_coverage selected_teams uncovered_events
    = (if decide (uncovered_events = ∅) then (selected_teams, uncovered_events)
       else match find_best team_coverage selected_teams uncovered_events with
            | (None, _, _) => (selected_teams, uncovered_events)
            | (Some best_team, _, best_events) =>
                greedy_loop team_coverage (selected_teams ++ [best_team])
                  (uncovered_events ∖ best_events)
            end)
    ∧ explorer_loop team_coverage selected_teams uncovered_events
      = (if decide (uncovered_events = ∅)
         then Some (selected_teams, uncovered_events)
         else match find_best_team team_coverage selected_teams uncovered_events with
              | (None, _) => Some (selected_teams, uncovered_events)
              | (Some best_team, _) =>
                  team_events ← dict_getitem team_coverage best_team;
                  explorer_loop team_coverage (selected_teams ++ [best_team])
                    (uncovered_events ∖ (list_to_set team_events ∩ uncovered_events))
              end)
    ∧ find_best_team team_coverage selected_teams uncovered_events
      = (find_best team_coverage selected_teams uncovered_events).1
    ∧ match find_best team_coverage selected_teams uncovered_events with
      | (Some best_team, best_coverage, best_events) =>
          ∃ i team_events,
            team_coverage !! i = Some (best_team, team_events)
            ∧ (best_team ∉ selected_teams)
            ∧ best_events = list_to_set team_events ∩ uncovered_events
            ∧ best_coverage = size best_events
            ∧ 0 < best_coverage
            ∧ ∀ j team' team_events',
                team_coverage !! j = Some (team', team_events') →
                team' ∉ selected_teams →
                size ((list_to_set team_events' : gset string) ∩ uncovered_events)
                  ≤ best_coverage
                ∧ (j < i →
                   size ((list_to_set team_events' : gset string) ∩ uncovered_events)
                     < best_coverage)
      | (None, _, _) =>
          ∀ team team_events, (team, team_events) ∈ team_coverage →
            team ∉ selected_teams →
            size ((list_to_set team_events : gset string) ∩ uncovered_events) = 0
      end.
Proof.
  intros tc sel unc.
  split_and!; [apply greedy_loop_eq|apply explorer_loop_eq
              |apply find_best_team_find_best|].
  pose proof (find_best_inv sel unc tc) as Hinv.
  destruct (find_best tc sel unc) as [[[b|] c] e]; simpl in Hinv.
  - destruct Hinv as (i & evs & (Hi & Hb & Hpos & Hmax) & -> & ->).
    exists i, evs. split_and!; [done..|]. apply Hmax.
  - destruct Hinv as (_ & _ & Hno). apply Hno.
Qed.

(** ** The required team *)


(** C3 at the required team 0: team 0 passes the eligibility test and is a
    key of the index, yet the selector returns [[1]], where team 0 is not
    first (it is not in the solution at all). *)
Theorem C3_required_team_zero_not_first :
  eligible 12000 [] [] 0 = true
  ∧ 0%Z ∈ (find_team_coverage events_zero 12000 None None).*1
  ∧ greedy_set_cover_with_required_team events_zero (Some 0%Z) 12000 None None
    = ([1]%Z, 1).
Proof. split_and!; [done|set_solver|]. vm_compute. reflexivity. Qed.

(** ** The required team 0 *)





Lemma start_state_falsy events tc r r' s :
  truthy r = false → truthy r' = false →
  start_state events tc r s = start_state events tc r' s.
Proof.
  intros Hr Hr'. unfold start_state.
  by rewrite !seed_required_falsy by done.
Qed.

Lemma try_start_team_zero_none events tc sols s :
  s ≠ 0%Z →
  try_start_team events tc (Some 0%Z) sols s = try_start_team events tc None sols s.
Proof.
  intros Hs. unfold try_start_team.
  rewrite (start_state_falsy events tc (Some 0%Z) None) by done.
  rewrite (bool_decide_eq_false_2 (Some s = Some 0%Z)) by congruence.
  by rewrite (bool_decide_eq_false_2 (Some s = None)) by done.
Qed.

(** Where the code tests the truthiness of [required_team] (lines 143, 189
    and 204), the required team 0 is no required team: the selector, the
    seeds and the start of every round are those of [None]. Line 197 alone
    tells them apart, by skipping the round of seed 0; so the explorer
    returns the same for both if team 0 is not among the seeds it takes. *)
Lemma required_team_zero_guarded_paths :
  ∀ (events : list (string * list Z)) (max_solutions max_team_number : Z)
    (excluded_teams included_teams : option (list Z)),
    let tc := find_team_coverage events max_team_number excluded_teams included_teams in
    greedy_set_cover_with_required_team events (Some 0%Z) max_team_number
      excluded_teams included_teams
    = greedy_set_cover_with_required_team events None max_team_number
        excluded_teams included_teams
    ∧ multi_event_teams tc (Some 0%Z) = multi_event_teams tc None
    ∧ (∀ start_team,
         start_state events tc (Some 0%Z) start_team
         = start_state events tc None start_team)
    ∧ (∀ solutions, 0 < length solutions →
         try_start_team events tc (Some 0%Z) solutions 0%Z = Some solutions)
    ∧ (0%Z ∉ py_slice_to (multi_event_teams tc None) max_solutions →
       find_alternative_solutions events (Some 0%Z) max_solutions max_team_number
         excluded_teams included_teams
       = find_alternative_solutions events None max_solutions max_team_number
           excluded_teams included_teams).
Proof.
  intros events K mx ex inc tc.
  assert (Hsel : greedy_set_cover_with_required_team events (Some 0%Z) mx ex inc
                 = greedy_set_cover_with_required_team events None mx ex inc).
  { rewrite !selector_eq; cbv zeta. by rewrite !seed_required_falsy by done. }
  split_and!; [done|done|by intros; apply start_state_falsy| |].
  - intros sols Hlen. unfold try_start_team.
    by rewrite !bool_decide_eq_true_2 by done.
  - intros Hz. unfold find_alternative_solutions; cbv zeta. rewrite Hsel.
    fold tc. change (multi_event_teams tc (Some 0%Z)) with (multi_event_teams tc None).
    erewrite for_each_ext; [done|].
    intros sols s Hs. apply try_start_team_zero_none. by intros ->.
Qed.

(** ** A required team that is excluded *)

Lemma index_key_eligible events max_team_number excluded_teams included_teams team :
  team ∈ (find_team_coverage events max_team_number excluded_teams included_teams).*1 →
  eligible max_team_number (or_empty excluded_teams) (or_empty included_teams) team
  = true.
Proof.
  rewrite find_team_coverage_add_events, add_events_keys.
  by intros [?%elem_of_nil|(? & ? & ? & ? & ?)].
Qed.

Lemma excluded_not_in_index events max_team_number excluded_teams included_teams team :
  team ∈ or_empty excluded_teams →
  team ∉ (find_team_coverage events max_team_number excluded_teams included_teams).*1.
Proof.
  intros Hex Hin%index_key_eligible. unfold eligible in Hin.
  apply bool_decide_eq_true in Hin as [_ ?]. done.
Qed.

(** Every team of every returned solution is a key of the index. *)
Lemma explorer_teams_in_index events required_team max_solutions max_team_number
    excluded_teams included_teams :
  ∃ solutions,
    find_alternative_solutions events required_team max_solutions max_team_number
      excluded_teams included_teams = Some solutions
    ∧ ∀ sol t, sol ∈ solutions → t ∈ sol.1 →
        t ∈ (find_team_coverage events max_team_number excluded_teams
               included_teams).*1.
Proof.
  destruct (find_alternative_solutions_returns events required_team max_team_number
              excluded_teams included_teams max_solutions)
    as (sols & n & -> & (Hhd & _ & Hc) & _).
  eexists; split; [done|].
  intros sol t [i [Hi _]%lookup_take_Some]%list_elem_of_lookup Ht.
  destruct i as [|i].
  - destruct sols as [|sol1 sols]; simplify_eq/=.
    by eapply selector_teams_in_index.
  - by apply (Hc (S i) sol); [lia|..].
Qed.

Lemma py_slice_to_cons {A} (l : list A) (k : Z) :
  ∃ n, ∀ x, py_slice_to (x :: l) k = take n (x :: l).
Proof. unfold py_slice_to. simpl length. case_decide; eauto. Qed.

Lemma try_start_team_skip events tc r solutions :
  0 < length solutions →
  try_start_team events tc (Some r) solutions r = Some solutions.
Proof. intros ?. unfold try_start_team. by rewrite !bool_decide_eq_true_2 by done. Qed.

Lemma multi_event_teams_in_index (tc : list (Z * list string)) t :
  t ∈ (filter (λ item : Z * list string, 2 ≤ length item.2) tc).*1 → t ∈ tc.*1.
Proof.
  intros (item & -> & Hin%list_elem_of_filter)%list_elem_of_fmap.
  apply list_elem_of_fmap. exists item. by destruct Hin.
Qed.

Lemma multi_event_teams_absent tc r :
  r ≠ 0%Z → r ∉ tc.*1 →
  multi_event_teams tc (Some r)
  = r :: (filter (λ item : Z * list string, 2 ≤ length item.2) tc).*1.
Proof.
  intros Hr Habs. unfold multi_event_teams, truthy.
  rewrite bool_decide_eq_true_2 by done.
  by rewrite decide_False by (intros ?%multi_event_teams_in_index; done).
Qed.

(** The explorer sees a required team that is not a key of the index only
    through its truthiness. *)
Lemma explorer_absent_required events r r' max_solutions max_team_number
    excluded_teams included_teams :
  r ∉ (find_team_coverage events max_team_number excluded_teams included_teams).*1 →
  r' ∉ (find_team_coverage events max_team_number excluded_teams included_teams).*1 →
  (r = 0%Z ↔ r' = 0%Z) →
  find_alternative_solutions events (Some r) max_solutions max_team_number
    excluded_teams included_teams
  = find_alternative_solutions events (Some r') max_solutions max_team_number
      excluded_teams included_teams.
Proof.
  intros Hr Hr' Hz. unfold find_alternative_solutions; cbv zeta.
  set (tc := find_team_coverage _ _ _ _) in *.
  assert (Hsel : greedy_set_cover_with_required_team events (Some r)
                   max_team_number excluded_teams included_teams
                 = greedy_set_cover_with_required_team events (Some r')
                     max_team_number excluded_teams included_teams).
  { rewrite !selector_eq; cbv zeta. fold tc. by rewrite !seed_required_absent. }
  rewrite Hsel, app_nil_l.
  set (sol1 := greedy_set_cover_with_required_team _ (Some r') _ _ _).
  assert (Hbody : ∀ sols s, s ∈ tc.*1 →
    try_start_team events tc (Some r) sols s = try_start_team events tc (Some r') sols s).
  { intros sols s Hs. unfold try_start_team, start_state.
    rewrite !seed_required_absent by done.
    rewrite (bool_decide_eq_false_2 (Some s = Some r)) by (intros [= ->]; done).
    by rewrite (bool_decide_eq_false_2 (Some s = Some r')) by (intros [= ->]; done). }
  destruct (decide (r = 0%Z)) as [->|Hr0].
  { by rewrite (proj1 Hz eq_refl). }
  assert (r' ≠ 0%Z) as Hr'0 by (intros ?; apply Hr0; by apply Hz).
  rewrite !multi_event_teams_absent by done.
  destruct (py_slice_to_cons
    (filter (λ item : Z * list string, 2 ≤ length item.2) tc).*1 max_solutions)
    as [n Hn].
  rewrite !Hn. destruct n as [|n]; [done|]. cbn [take for_each].
  rewrite !try_start_team_skip by (simpl; lia). cbn [mbind option_bind].
  erewrite for_each_ext; [done|].
  intros sols s Hs%elem_of_take. apply Hbody.
  destruct Hs as (i & Hs%list_elem_of_lookup_2 & _).
  by apply multi_event_teams_in_index.
Qed.

Example conflict_reported_nowhere :
  (greedy_set_cover_with_required_team events_abcd (Some 1%Z) 10
     (Some [1%Z]) (Some [1%Z]),
   find_alternative_solutions events_abcd (Some 1%Z) 5 10 (Some [1%Z]) (Some [1%Z]))
  = (([2; 3]%Z, 2), Some [([2; 3]%Z, 2)]).
Proof. vm_compute. reflexivity. Qed.

Example no_conflict_same_data :
  (greedy_set_cover_with_required_team events_abcd (Some 1%Z) 0
     None (Some [2; 3]%Z),
   find_alternative_solutions events_abcd (Some 1%Z) 5 0 None (Some [2; 3]%Z))
  = (([2; 3]%Z, 2), Some [([2; 3]%Z, 2)]).
Proof. vm_compute. reflexivity. Qed.

(** C5, as the specification states it, fails: nothing that the selector
    and the explorer return tells whether the required team is in the
    exclusion list. With events A..D, required team 1, exclusion list [1]
    and inclusion list [1] they return the same data as with required team
    1, threshold 0, no exclusion and inclusion list [2; 3], where nothing
    conflicts. So no function of the returned data reports the conflict. *)
Lemma C5_counterexample_conflict_not_in_returned_data :
  ¬ ∃ report : (list Z * nat) * option (list solution) → bool,
      ∀ (events : list (string * list Z)) (required_team : Z)
        (max_solutions max_team_number : Z)
        (excluded_teams included_teams : option (list Z)),
        report
          (greedy_set_cover_with_required_team events (Some required_team)
             max_team_number excluded_teams included_teams,
           find_alternative_solutions events (Some required_team) max_solutions
             max_team_number excluded_teams included_teams) = true
        ↔ required_team ∈ or_empty excluded_teams.
Proof.
  intros [report H].
  pose proof (H events_abcd 1%Z 5%Z 10%Z (Some [1%Z]) (Some [1%Z])) as H1.
  pose proof (H events_abcd 1%Z 5%Z 0%Z None (Some [2; 3]%Z)) as H2.
  rewrite conflict_reported_nowhere in H1.
  rewrite no_conflict_same_data in H2.
  assert (Hin : 1%Z ∈ or_empty (Some [1%Z])) by (simpl; set_solver).
  apply H1, H2 in Hin. simpl in Hin. by apply elem_of_nil in Hin.
Qed.

(** C5, amended. When the required team is in the exclusion list, the
    engine does not include it in any solution, and it reports nothing:
    the selector returns what it returns without a required team, and,
    when the required team is not 0, the explorer returns what it returns
    for any other required team that is not 0 and is merely not a key of
    the index. The conflict is reported by the command line alone: with
    these arguments and a mapping that is not empty, [main] takes its
    branch "team is in the excluded teams list" (lines 442-446) and returns
    before it calls the engine. *)
Theorem C5_excluded_required_team_silently_dropped :
  ∀ (events : list (string * list Z)) (required_team : Z)
    (max_solutions max_team_number : Z)
    (excluded_teams included_teams : option (list Z)),
    required_team ∈ or_empty excluded_teams →
    let index :=
      find_team_coverage events max_team_number excluded_teams included_teams in
    let solution1 :=
      greedy_set_cover_with_required_team events (Some required_team)
        max_team_number excluded_teams included_teams in
    (required_team ∉ solution1.1)
    ∧ (∃ solutions,
         find_alternative_solutions events (Some required_team) max_solutions
           max_team_number excluded_teams included_teams = Some solutions
         ∧ ∀ sol, sol ∈ solutions → required_team ∉ sol.1)
    ∧ solution1
      = greedy_set_cover_with_required_team events None max_team_number
          excluded_teams included_teams
    ∧ (required_team ≠ 0%Z →
       ∀ other_team,
         other_team ≠ 0%Z →
         other_team ∉ index.*1 →
         find_alternative_solutions events (Some required_team) max_solutions
           max_team_number excluded_teams included_teams
         = find_alternative_solutions events (Some other_team) max_solutions
             max_team_number excluded_teams included_teams)
    ∧ main_analysis events required_team max_team_number max_solutions
        (or_empty excluded_teams) (or_empty included_teams)
      = match events with [] => NoEvents | _ :: _ => TeamExcluded end.
Proof.
  intros events r K mx ex inc Hex index solution1.
  assert (Habs : r ∉ index.*1) by by apply excluded_not_in_index.
  split_and!.
  - intros Hin. apply Habs. by eapply selector_teams_in_index.
  - destruct (explorer_teams_in_index events (Some r) K mx ex inc)
      as (sols & Hs & Hin).
    exists sols. split; [done|]. intros sol Hsol Hr. apply Habs. by eapply Hin.
  - subst solution1. rewrite !selector_eq; cbv zeta.
    by rewrite seed_required_absent.
  - intros Hr r' Hr' Habs'. apply explorer_absent_required; [done..|].
    split; intros ?; done.
  - unfold main_analysis. destruct events as [|event events]; [done|].
    by rewrite bool_decide_eq_true_2 by done.
Qed.

Lemma C5_excluded_required_team_silently_dropped_witness :
  1%Z ∈ or_empty (Some [1%Z])
  ∧ greedy_set_cover_with_required_team events_abcd (Some 1%Z) 10
      (Some [1%Z]) (Some [1%Z])
    = greedy_set_cover_with_required_team events_abcd None 10
        (Some [1%Z]) (Some [1%Z])
  ∧ main_analysis events_abcd 1 10 5 [1%Z] [1%Z] = TeamExcluded.
Proof.
  assert (H : 1%Z ∈ or_empty (Some [1%Z])) by (simpl; set_solver).
  pose proof (C5_excluded_required_team_silently_dropped events_abcd 1 5 10
                (Some [1%Z]) (Some [1%Z]) H) as (_ & _ & Hsel & _ & Hmain).
  split_and!; [exact H|exact Hsel|exact Hmain].
Defined.

(** ** Dependence on the iteration order of the raw mapping *)

Section IndexValues.
Context (max_team_number : Z) (excluded_teams included_teams : list Z).

Lemma add_teams_getitem event_name teams d t :
  default [] (dict_getitem
    (add_teams max_team_number excluded_teams included_teams event_name teams d) t)
  = default [] (dict_getitem d t)
    ++ (teams ≫= λ x,
          if decide (x = t) then
            if eligible max_team_number excluded_teams included_teams x
            then [event_name] else []
          else []).
Proof.
  unfold add_teams. revert d.
  induction teams as [|x teams IH]; intros d; [by rewrite app_nil_r|].
  rewrite bind_cons, app_assoc. cbn [fold_left]. rewrite IH. f_equal.
  destruct (eligible _ _ _ x).
  - rewrite defaultdict_append_getitem.
    repeat case_decide; simplify_eq/=; [done|by rewrite app_nil_r].
  - case_decide; by rewrite app_nil_r.
Qed.

Lemma add_events_getitem events d t :
  default [] (dict_getitem
    (add_events max_team_number excluded_teams included_teams events d) t)
  = default [] (dict_getitem d t)
    ++ team_events_of max_team_number excluded_teams included_teams events t.
Proof.
  unfold add_events, team_events_of. revert d.
  induction events as [|[e teams] events IH]; intros d; simpl;
    [by rewrite app_nil_r|].
  by rewrite IH, add_teams_getitem, app_assoc.
Qed.
End IndexValues.

Lemma index_equiv_intro tc1 tc2 :
  dict_wf tc1 → tc1.*1 = tc2.*1 →
  (∀ t, default [] (dict_getitem tc1 t) ≡ₚ default [] (dict_getitem tc2 t)) →
  index_equiv tc1 tc2.
Proof.
  unfold dict_wf, index_equiv. revert tc2.
  induction tc1 as [|[k v] tc1 IH]; intros [|[k' v'] tc2] Hwf Hk Hv;
    simplify_eq/=; [constructor|].
  apply NoDup_cons in Hwf as [Hk Hwf]. constructor.
  - split; [done|]. specialize (Hv k'). simpl in Hv. by rewrite !decide_True in Hv.
  - apply IH; [done..|]. intros t. specialize (Hv t).
    destruct (decide (k' = t)) as [->|?]; [|done].
    pose proof Hk as Hk'. rewrite H0 in Hk'.
    apply dict_getitem_None in Hk, Hk'. by rewrite Hk, Hk'.
Qed.

Lemma find_team_coverage_perm events1 events2 max_team_number
    excluded_teams included_teams :
  events1 ≡ₚ events2 →
  (find_team_coverage events1 max_team_number excluded_teams included_teams).*1
  = (find_team_coverage events2 max_team_number excluded_teams included_teams).*1 →
  index_equiv
    (find_team_coverage events1 max_team_number excluded_teams included_teams)
    (find_team_coverage events2 max_team_number excluded_teams included_teams).
Proof.
  intros Hperm Hkeys. apply index_equiv_intro;
    [apply find_team_coverage_wf|done|].
  intros t. rewrite !find_team_coverage_add_events, !add_events_getitem. simpl.
  unfold team_events_of. by rewrite Hperm.
Qed.

Section IndexEquiv.

Lemma index_equiv_getitem tc1 tc2 t :
  index_equiv tc1 tc2 →
  (λ evs, (list_to_set evs : gset string, length evs)) <$> dict_getitem tc1 t
  = (λ evs, (list_to_set evs : gset string, length evs)) <$> dict_getitem tc2 t.
Proof.
  induction 1 as [|[k v] [k' v'] ?? [? Hv] _ IH]; simplify_eq/=; [done|].
  destruct (decide (k' = t)); [|done]. simpl. f_equal.
  f_equal; [by apply list_to_set_perm_L|by apply Permutation_length].
Qed.

Lemma index_equiv_find_best tc1 tc2 sel unc :
  index_equiv tc1 tc2 → find_best tc1 sel unc = find_best tc2 sel unc.
Proof.
  intros Hequiv.
  unfold find_best. generalize (None : option Z, 0, (∅ : gset string)).
  induction Hequiv as [|[k v] [k' v'] ?? [? Hv] _ IH]; intros st;
    simplify_eq/=; [done|].
  rewrite <- IH. f_equal. destruct st as [[bt bc] be]. unfold scan_step.
  by rewrite (list_to_set_perm_L v v' Hv).
Qed.

Lemma index_equiv_multi_event_teams tc1 tc2 r :
  index_equiv tc1 tc2 → multi_event_teams tc1 r = multi_event_teams tc2 r.
Proof.
  intros Hequiv. unfold multi_event_teams.
  assert ((filter (λ item : Z * list string, 2 ≤ length item.2) tc1).*1
          = (filter (λ item : Z * list string, 2 ≤ length item.2) tc2).*1) as ->;
    [|done].
  induction Hequiv as [|[k v] [k' v'] ?? [Hk Hv] _ IH]; [done|].
  cbn [fst snd] in Hk, Hv. subst k'.
  rewrite !filter_cons. cbn [fst snd]. rewrite (Permutation_length Hv).
  case_decide; rewrite ?fmap_cons; by rewrite IH.
Qed.

Variables tc1 tc2 : list (Z * list string).
Hypothesis Hequiv : index_equiv tc1 tc2.

Lemma index_equiv_greedy_run sel unc n sel' unc' :
  greedy_run tc1 sel unc n sel' unc' → greedy_run tc2 sel unc n sel' unc'.
Proof.
  induction 1 as [sel unc Hu|sel unc c e Hu Hf
                 |sel unc b c e n sel' unc' Hu Hf _ IH].
  - by constructor.
  - eapply greedy_run_break; [done|].
    by rewrite <- (index_equiv_find_best tc1 tc2).
  - eapply greedy_run_round; [done| |done].
    by rewrite <- (index_equiv_find_best tc1 tc2).
Qed.

Lemma index_equiv_greedy_loop sel unc :
  greedy_loop tc1 sel unc = greedy_loop tc2 sel unc.
Proof.
  destruct (greedy_loop_run tc1 sel unc) as [n Hn].
  apply index_equiv_greedy_run, greedy_run_fun in Hn.
  by rewrite Hn, <- surjective_pairing.
Qed.

Lemma index_equiv_getitem_set t :
  (list_to_set (default [] (dict_getitem tc1 t)) : gset string)
  = list_to_set (default [] (dict_getitem tc2 t)).
Proof.
  pose proof (index_equiv_getitem tc1 tc2 t Hequiv) as H.
  destruct (dict_getitem tc1 t), (dict_getitem tc2 t); by simplify_eq/=.
Qed.

Lemma index_equiv_seed_required r s sel unc :
  seed_required tc1 r s sel unc = seed_required tc2 r s sel unc.
Proof.
  unfold seed_required. destruct r as [z|]; [|done].
  destruct (_ && _); [|done].
  pose proof (index_equiv_getitem tc1 tc2 z Hequiv) as H.
  destruct (dict_getitem tc1 z), (dict_getitem tc2 z); simplify_eq/=; [|done].
  by f_equal; f_equal.
Qed.

Lemma index_equiv_covered_events sel :
  covered_events tc1 sel = covered_events tc2 sel.
Proof.
  unfold covered_events. f_equal. apply list_fmap_ext.
  intros _ t _. apply index_equiv_getitem_set.
Qed.

End IndexEquiv.

Lemma universe_perm (events1 events2 : list (string * list Z)) :
  events1 ≡ₚ events2 →
  (list_to_set events1.*1 : gset string) = list_to_set events2.*1.
Proof. intros Hperm. by apply list_to_set_perm_L, fmap_Permutation. Qed.

Lemma start_state_equiv events1 events2 tc1 tc2 r s :
  index_equiv tc1 tc2 → events1 ≡ₚ events2 →
  start_state events1 tc1 r s = start_state events2 tc2 r s.
Proof.
  intros Hequiv Hperm. unfold start_state.
  rewrite (index_equiv_seed_required tc1 tc2 Hequiv), (universe_perm _ _ Hperm).
  destruct (seed_required tc2 r (Some s) [] _) as [sel unc].
  pose proof (index_equiv_getitem tc1 tc2 s Hequiv) as H.
  destruct (dict_getitem tc1 s), (dict_getitem tc2 s); simplify_eq/=; [|done].
  by rewrite H.
Qed.

Lemma try_start_team_equiv events1 events2 tc1 tc2 r sols s :
  dict_wf tc1 → dict_wf tc2 → index_equiv tc1 tc2 → events1 ≡ₚ events2 →
  try_start_team events1 tc1 r sols s = try_start_team events2 tc2 r sols s.
Proof.
  intros Hwf1 Hwf2 Hequiv Hperm. rewrite !try_start_team_eq by done.
  unfold round_teams.
  rewrite (start_state_equiv events1 events2 tc1 tc2) by done.
  rewrite (index_equiv_greedy_loop tc1 tc2 Hequiv).
  rewrite (index_equiv_covered_events tc1 tc2 Hequiv).
  by rewrite (Permutation_length Hperm).
Qed.


Example explorer_order1 :
  find_alternative_solutions events_order1 None 5 12000 None None
  = Some [([1; 2]%Z, 2)].
Proof. vm_compute. reflexivity. Qed.

Example explorer_order2 :
  find_alternative_solutions events_order2 None 5 12000 None None
  = Some [([2; 1]%Z, 2)].
Proof. vm_compute. reflexivity. Qed.

(** C6, as the specification states it, fails: two raw mappings with the
    same entries in a different insertion order can give different lists of
    solutions. *)
Lemma C6_counterexample_insertion_order :
  ¬ (∀ (events1 events2 : list (string * list Z)) (required_team : option Z)
       (max_solutions max_team_number : Z)
       (excluded_teams included_teams : option (list Z)),
       dict_wf events1 → dict_wf events2 → events1 ≡ₚ events2 →
       find_alternative_solutions events1 required_team max_solutions
         max_team_number excluded_teams included_teams
       = find_alternative_solutions events2 required_team max_solutions
           max_team_number excluded_teams included_teams).
Proof.
  intros H.
  specialize (H events_order1 events_order2 None 5%Z 12000%Z None None).
  rewrite explorer_order1, explorer_order2 in H.
  assert (Hwf : ∀ a b : string, a ≠ b → NoDup [a; b]).
  { intros a b Hab. apply NoDup_cons. split; [set_solver|apply NoDup_singleton]. }
  discriminate H.
  - by apply Hwf.
  - by apply Hwf.
  - apply Permutation_swap.
Qed.

(** C6, amended. The result depends on the insertion order of the raw
    mapping only through the order in which the teams first occur: two raw
    mappings with the same entries whose indices list the teams in the same
    order give the same solution of the selector and the same list of
    solutions of the explorer. *)
Theorem C6_same_entries_same_team_order :
  ∀ (events1 events2 : list (string * list Z)) (required_team : option Z)
    (max_solutions max_team_number : Z)
    (excluded_teams included_teams : option (list Z)),
    events1 ≡ₚ events2 →
    (find_team_coverage events1 max_team_number excluded_teams included_teams).*1
    = (find_team_coverage events2 max_team_number excluded_teams included_teams).*1 →
    greedy_set_cover_with_required_team events1 required_team max_team_number
      excluded_teams included_teams
    = greedy_set_cover_with_required_team events2 required_team max_team_number
        excluded_teams included_teams
    ∧ find_alternative_solutions events1 required_team max_solutions
        max_team_number excluded_teams included_teams
      = find_alternative_solutions events2 required_team max_solutions
          max_team_number excluded_teams included_teams.
Proof.
  intros events1 events2 r K mx ex inc Hperm Hkeys.
  pose proof (find_team_coverage_perm _ _ mx ex inc Hperm Hkeys) as Hequiv.
  assert (Hsel : greedy_set_cover_with_required_team events1 r mx ex inc
                 = greedy_set_cover_with_required_team events2 r mx ex inc).
  { rewrite !selector_eq; cbv zeta.
    rewrite (index_equiv_seed_required _ _ Hequiv), (universe_perm _ _ Hperm).
    by rewrite (index_equiv_greedy_loop _ _ Hequiv). }
  split; [done|].
  unfold find_alternative_solutions; cbv zeta.
  rewrite Hsel, (index_equiv_multi_event_teams _ _ r Hequiv).
  erewrite for_each_ext; [done|].
  intros sols s _.
  apply try_start_team_equiv; [apply find_team_coverage_wf..|done|done].
Qed.


Lemma C6_same_entries_same_team_order_witness :
  events_late1 ≡ₚ events_late2
  ∧ (find_team_coverage events_late1 12000 None None).*1
    = (find_team_coverage events_late2 12000 None None).*1
  ∧ find_alternative_solutions events_late1 (Some 1%Z) 5 12000 None None
    = find_alternative_solutions events_late2 (Some 1%Z) 5 12000 None None.
Proof.
  assert (Hperm : events_late1 ≡ₚ events_late2)
    by (apply perm_skip, Permutation_swap).
  split_and!; [exact Hperm|reflexivity|].
  exact (proj2 (C6_same_entries_same_team_order events_late1 events_late2
                  (Some 1%Z) 5 12000 None None Hperm eq_refl)).
Defined.

(** * Further properties of the engine *)

(** ** The entries of the index *)

Lemma team_events_of_elem max_team_number excluded_teams included_teams events team e :
  e ∈ team_events_of max_team_number excluded_teams included_teams events team
  ↔ eligible max_team_number excluded_teams included_teams team = true
    ∧ ∃ teams, (e, teams) ∈ events ∧ team ∈ teams.
Proof.
  unfold team_events_of. rewrite list_elem_of_bind. split.
  - intros ([e' teams] & (x & Hx & Hin)%list_elem_of_bind & Hev).
    destruct (decide (x = team)) as [->|]; [|by apply elem_of_nil in Hx].
    destruct (eligible _ _ _ team) eqn:He; [|by apply elem_of_nil in Hx].
    apply list_elem_of_singleton in Hx as ->. eauto.
  - intros (He & teams & Hev & Hin). exists (e, teams). split; [|done].
    apply list_elem_of_bind. exists team. split; [|done].
    rewrite decide_True, He by done. set_solver.
Qed.

Lemma find_team_coverage_getitem events max_team_number excluded_teams included_teams t :
  default [] (dict_getitem
    (find_team_coverage events max_team_number excluded_teams included_teams) t)
  = team_events_of max_team_number (or_empty excluded_teams)
      (or_empty included_teams) events t.
Proof. by rewrite find_team_coverage_add_events, add_events_getitem. Qed.

Lemma index_entry_nonempty events max_team_number excluded_teams included_teams t evs :
  dict_getitem (find_team_coverage events max_team_number excluded_teams included_teams) t
  = Some evs →
  evs ≠ [].
Proof.
  intros Hg.
  assert (Hkey : t ∈ (find_team_coverage events max_team_number excluded_teams
                        included_teams).*1)
    by (apply dict_getitem_is_Some; eauto).
  pose proof (find_team_coverage_getitem events max_team_number excluded_teams
                included_teams t) as Hev.
  rewrite Hg in Hev. simpl in Hev.
  pose proof (index_key_eligible _ _ _ _ _ Hkey) as He.
  rewrite find_team_coverage_add_events, add_events_keys in Hkey.
  destruct Hkey as [?%elem_of_nil|(e & teams & Hin & Ht & _)]; [done|].
  assert (e ∈ evs) as Hin'; [|by intros ->; apply elem_of_nil in Hin'].
  rewrite Hev. apply team_events_of_elem. eauto.
Qed.

(** X1. The index is the raw mapping turned round: the entry of a team
    lists an event exactly when the team is eligible and occurs in the
    team list of that event; it lists the events in the order of the
    mapping, once for each occurrence of the team, and it is never empty. *)
Theorem X1_index_entries_invert_mapping :
  ∀ (events : list (string * list Z)) (max_team_number : Z)
    (excluded_teams included_teams : option (list Z)) (team : Z),
    let index :=
      find_team_coverage events max_team_number excluded_teams included_teams in
    dict_getitem index team
    = (if decide (team ∈ index.*1)
       then Some (team_events_of max_team_number (or_empty excluded_teams)
                    (or_empty included_teams) events team)
       else None)
    ∧ (∀ event_name,
         event_name ∈ default [] (dict_getitem index team)
         ↔ eligible max_team_number (or_empty excluded_teams)
             (or_empty included_teams) team = true
           ∧ ∃ teams, (event_name, teams) ∈ events ∧ team ∈ teams)
    ∧ dict_getitem index team ≠ Some [].
Proof.
  intros events mx ex inc team index. split_and!.
  - pose proof (find_team_coverage_getitem events mx ex inc team) as Hev.
    fold index in Hev. case_decide as Hk.
    + apply dict_getitem_is_Some in Hk as [evs Hg]. rewrite Hg in Hev |- *.
      simpl in Hev. by rewrite Hev.
    + by apply dict_getitem_None.
  - intros e. subst index. rewrite find_team_coverage_getitem.
    apply team_events_of_elem.
  - intros Hg. by apply index_entry_nonempty in Hg.
Qed.

(** ** When the greedy loops cover every event *)

Lemma covered_events_nil tc : covered_events tc [] = ∅.
Proof. done. Qed.

Lemma covered_events_app tc sel sel' :
  covered_events tc (sel ++ sel') = covered_events tc sel ∪ covered_events tc sel'.
Proof. unfold covered_events. by rewrite fmap_app, union_list_app_L. Qed.

Lemma covered_events_singleton tc t :
  covered_events tc [t] = list_to_set (default [] (dict_getitem tc t)).
Proof. unfold covered_events. simpl. set_solver. Qed.

Lemma covered_events_elem tc sel x :
  x ∈ covered_events tc sel
  ↔ ∃ t evs, t ∈ sel ∧ dict_getitem tc t = Some evs ∧ x ∈ evs.
Proof.
  unfold covered_events. rewrite elem_of_union_list. split.
  - intros (X & (t & -> & Ht)%list_elem_of_fmap & Hx).
    destruct (dict_getitem tc t) as [evs|] eqn:Hg; simpl in Hx; [|set_solver].
    exists t, evs. set_solver.
  - intros (t & evs & Ht & Hg & Hx). eexists. split.
    + apply list_elem_of_fmap. by exists t.
    + rewrite Hg. set_solver.
Qed.

Section Completeness.
Variables (tc : list (Z * list string)) (universe : gset string).
Hypothesis tc_wf : dict_wf tc.

Lemma greedy_run_uncovered sel unc n sel' unc' :
  greedy_run tc sel unc n sel' unc' →
  unc = universe ∖ covered_events tc sel →
  unc' = universe ∖ covered_events tc sel'.
Proof.
  induction 1 as [sel unc Hu|sel unc c e Hu Hf
                 |sel unc b c e n sel' unc' Hu Hf _ IH]; [done..|].
  intros ->. apply IH.
  destruct (find_best_getitem tc tc_wf _ _ _ _ _ Hf) as (evs & Hg & ->).
  rewrite covered_events_app, covered_events_singleton, Hg. simpl. set_solver.
Qed.

Lemma greedy_run_exit sel unc n sel' unc' :
  greedy_run tc sel unc n sel' unc' → unc' = ∅ ∨ no_candidate tc sel' unc'.
Proof.
  induction 1 as [sel unc Hu|sel unc c e Hu Hf
                 |sel unc b c e n sel' unc' Hu Hf _ IH]; [by left| |done].
  right. pose proof (find_best_inv sel unc tc) as Hinv. rewrite Hf in Hinv.
  by destruct Hinv as (_ & _ & ?).
Qed.

(** A greedy loop entered with the events not yet covered by the teams it
    starts with ends with every event covered exactly when the index can
    cover every event. *)
Lemma greedy_loop_complete_iff sel :
  universe ⊆ covered_events tc
               (greedy_loop tc sel (universe ∖ covered_events tc sel)).1
  ↔ coverable tc universe.
Proof.
  destruct (greedy_loop_run tc sel (universe ∖ covered_events tc sel)) as [n Hn].
  pose proof (greedy_run_uncovered _ _ _ _ _ Hn eq_refl) as Hunc.
  pose proof (greedy_run_exit _ _ _ _ _ Hn) as Hexit.
  set (res := greedy_loop tc sel (universe ∖ covered_events tc sel)) in *.
  split.
  - intros Hsub x Hx. apply Hsub, covered_events_elem in Hx as (t & evs & _ & Hg & Hx).
    exists t, evs. split; [by apply dict_getitem_elem_of|done].
  - intros Hcov x Hx. destruct (decide (x ∈ covered_events tc res.1)) as [|Hnc]; [done|].
    exfalso. assert (Hxu : x ∈ res.2) by (rewrite Hunc; set_solver).
    destruct Hexit as [Hempty|Hno]; [set_solver|].
    destruct (Hcov x Hx) as (t & evs & Hin & Hxe).
    destruct (decide (t ∈ res.1)) as [Ht|Ht].
    + apply Hnc, covered_events_elem. exists t, evs.
      split_and!; [done|by apply dict_getitem_wf|done].
    + pose proof (Hno t evs Hin Ht) as Hz. unfold marginal_coverage in Hz.
      apply size_empty_iff in Hz. set_solver.
Qed.

(** Which events it covers: those that some team of the index lists. *)
Lemma greedy_loop_covers sel x :
  x ∈ universe →
  x ∈ covered_events tc (greedy_loop tc sel (universe ∖ covered_events tc sel)).1
  ↔ ∃ t evs, (t, evs) ∈ tc ∧ x ∈ evs.
Proof.
  intros Hx.
  destruct (greedy_loop_run tc sel (universe ∖ covered_events tc sel)) as [n Hn].
  pose proof (greedy_run_uncovered _ _ _ _ _ Hn eq_refl) as Hunc.
  pose proof (greedy_run_exit _ _ _ _ _ Hn) as Hexit.
  set (res := greedy_loop tc sel (universe ∖ covered_events tc sel)) in *.
  split.
  - intros (t & evs & _ & Hg & Hxe)%covered_events_elem.
    exists t, evs. split; [by apply dict_getitem_elem_of|done].
  - intros (t & evs & Hin & Hxe).
    destruct (decide (x ∈ covered_events tc res.1)) as [|Hnc]; [done|].
    exfalso. assert (Hxu : x ∈ res.2) by (rewrite Hunc; set_solver).
    destruct Hexit as [Hempty|Hno]; [set_solver|].
    destruct (decide (t ∈ res.1)) as [Ht|Ht].
    + apply Hnc, covered_events_elem. exists t, evs.
      split_and!; [done|by apply dict_getitem_wf|done].
    + pose proof (Hno t evs Hin Ht) as Hz. unfold marginal_coverage in Hz.
      apply size_empty_iff in Hz. set_solver.
Qed.
End Completeness.

Lemma seed_required_uncovered tc r s (universe : gset string) :
  (seed_required tc r s [] universe).2
  = universe ∖ covered_events tc (seed_required tc r s [] universe).1.
Proof.
  destruct (seed_required_cases tc r s [] universe)
    as [->|(z & evs & _ & _ & _ & Hg & ->)]; simpl.
  - rewrite covered_events_nil. set_solver.
  - by rewrite covered_events_singleton, Hg.
Qed.

Lemma start_state_uncovered events tc r s :
  (start_state events tc r s).2
  = list_to_set events.*1 ∖ covered_events tc (start_state events tc r s).1.
Proof.
  unfold start_state.
  pose proof (seed_required_uncovered tc r (Some s) (list_to_set events.*1)) as Hseed.
  destruct (seed_required tc r (Some s) [] (list_to_set events.*1)) as [sel unc].
  simpl in Hseed. subst unc.
  destruct (dict_getitem tc s) as [evs|] eqn:Hg; simpl; [|done].
  rewrite covered_events_app, covered_events_singleton, Hg. simpl. set_solver.
Qed.

(** Some team of the index lists an event exactly when the team list of
    the event has an eligible team. *)
Lemma index_lists_event events max_team_number excluded_teams included_teams e :
  (∃ t evs,
     (t, evs) ∈ find_team_coverage events max_team_number excluded_teams included_teams
     ∧ e ∈ evs)
  ↔ ∃ teams team, (e, teams) ∈ events ∧ team ∈ teams
      ∧ eligible max_team_number (or_empty excluded_teams)
          (or_empty included_teams) team = true.
Proof.
  set (tc := find_team_coverage _ _ _ _).
  assert (Hmem : ∀ t, (∃ evs, (t, evs) ∈ tc ∧ e ∈ evs)
    ↔ eligible max_team_number (or_empty excluded_teams) (or_empty included_teams) t
      = true ∧ ∃ teams, (e, teams) ∈ events ∧ t ∈ teams).
  { intros t. rewrite <- team_events_of_elem.
    unfold tc. rewrite <- find_team_coverage_getitem. fold tc. split.
    - intros (evs & Hin & He).
      by rewrite (dict_getitem_wf tc t evs (find_team_coverage_wf _ _ _ _) Hin).
    - intros He. destruct (dict_getitem tc t) as [evs|] eqn:Hg;
        [|by apply elem_of_nil in He].
      exists evs. split; [by apply dict_getitem_elem_of|done]. }
  split.
  - intros (t & evs & Hin & Hx).
    destruct (proj1 (Hmem t)) as (? & teams & ? & ?); [eauto|]. eauto.
  - intros (teams & t & ? & ? & ?).
    destruct (proj2 (Hmem t)) as (evs & ? & ?); eauto.
Qed.

(** The index can cover every event exactly when every event of the raw
    mapping lists an eligible team. *)
Lemma coverable_index events max_team_number excluded_teams included_teams :
  coverable (find_team_coverage events max_team_number excluded_teams included_teams)
    (list_to_set events.*1)
  ↔ ∀ event_name, event_name ∈ events.*1 →
      ∃ teams team, (event_name, teams) ∈ events ∧ team ∈ teams
        ∧ eligible max_team_number (or_empty excluded_teams)
            (or_empty included_teams) team = true.
Proof.
  set (tc := find_team_coverage _ _ _ _).
  assert (Hmem : ∀ t e, (∃ evs, (t, evs) ∈ tc ∧ e ∈ evs)
    ↔ eligible max_team_number (or_empty excluded_teams) (or_empty included_teams) t
      = true ∧ ∃ teams, (e, teams) ∈ events ∧ t ∈ teams).
  { intros t e. rewrite <- team_events_of_elem.
    unfold tc. rewrite <- find_team_coverage_getitem. fold tc. split.
    - intros (evs & Hin & He).
      by rewrite (dict_getitem_wf tc t evs (find_team_coverage_wf _ _ _ _) Hin).
    - intros He. destruct (dict_getitem tc t) as [evs|] eqn:Hg;
        [|by apply elem_of_nil in He].
      exists evs. split; [by apply dict_getitem_elem_of|done]. }
  split.
  - intros Hcov e He. destruct (Hcov e) as (t & evs & Hin & Hx); [set_solver|].
    destruct (proj1 (Hmem t e)) as (? & teams & ? & ?); [eauto|]. eauto.
  - intros Hall x Hx. destruct (Hall x) as (teams & t & ? & ? & ?); [set_solver|].
    destruct (proj2 (Hmem t x)) as (evs & ? & ?); eauto.
Qed.

Lemma covered_events_eq_universe events max_team_number excluded_teams included_teams sel :
  covered_events
    (find_team_coverage events max_team_number excluded_teams included_teams) sel
  = list_to_set events.*1
  ↔ list_to_set events.*1
    ⊆ covered_events
        (find_team_coverage events max_team_number excluded_teams included_teams) sel.
Proof.
  pose proof (covered_events_universe events max_team_number excluded_teams
                included_teams sel).
  set_solver.
Qed.

Lemma selector_complete_iff events required_team max_team_number
    excluded_teams included_teams :
  let index :=
    find_team_coverage events max_team_number excluded_teams included_teams in
  covered_events index
    (greedy_set_cover_with_required_team events required_team max_team_number
       excluded_teams included_teams).1
  = list_to_set events.*1
  ↔ coverable index (list_to_set events.*1).
Proof.
  intros index.
  unfold index at 1. rewrite covered_events_eq_universe. fold index.
  rewrite selector_eq; cbv zeta. fold index. cbn [fst].
  rewrite (seed_required_uncovered index required_team None (list_to_set events.*1)).
  apply greedy_loop_complete_iff, find_team_coverage_wf.
Qed.

(** X2. The selector's solution covers an event of the raw mapping exactly
    when the team list of the event has an eligible team: the greedy loop
    gives up only on events that no eligible team attends. So the solution
    covers every event exactly when every event lists an eligible team. *)
Theorem X2_selector_misses_only_uncoverable_events :
  ∀ (events : list (string * list Z)) (required_team : option Z)
    (max_team_number : Z) (excluded_teams included_teams : option (list Z)),
    let index :=
      find_team_coverage events max_team_number excluded_teams included_teams in
    let solution1 :=
      greedy_set_cover_with_required_team events required_team max_team_number
        excluded_teams included_teams in
    let attended event_name :=
      ∃ teams team, (event_name, teams) ∈ events ∧ team ∈ teams
        ∧ eligible max_team_number (or_empty excluded_teams)
            (or_empty included_teams) team = true in
    (∀ event_name, event_name ∈ events.*1 →
       (event_name ∈ covered_events index solution1.1 ↔ attended event_name))
    ∧ (covered_events index solution1.1 = list_to_set events.*1
       ↔ ∀ event_name, event_name ∈ events.*1 → attended event_name).
Proof.
  intros events r mx ex inc index solution1 attended. split.
  - intros e He. unfold attended. rewrite <- index_lists_event. fold index.
    subst solution1. rewrite selector_eq; cbv zeta. fold index. cbn [fst].
    rewrite (seed_required_uncovered index r None (list_to_set events.*1)).
    apply greedy_loop_covers; [apply find_team_coverage_wf|].
    by apply elem_of_list_to_set.
  - unfold attended. rewrite <- coverable_index. apply selector_complete_iff.
Qed.

(** The same for the teams a round of the explorer ends with. *)
Lemma round_teams_complete_iff events r s max_team_number excluded_teams included_teams :
  let index :=
    find_team_coverage events max_team_number excluded_teams included_teams in
  covered_events index (round_teams events index r s) = list_to_set events.*1
  ↔ coverable index (list_to_set events.*1).
Proof.
  intros index. unfold index at 1. rewrite covered_events_eq_universe. fold index.
  unfold round_teams. rewrite start_state_uncovered.
  apply greedy_loop_complete_iff, find_team_coverage_wf.
Qed.

(** ** The members of the returned list *)

Lemma explorer_accumulates_rounds events required_team max_team_number
    excluded_teams included_teams seeds :
  let tc := find_team_coverage events max_team_number excluded_teams included_teams in
  let solution1 :=
    greedy_set_cover_with_required_team events required_team max_team_number
      excluded_teams included_teams in
  ∃ solutions,
    for_each (try_start_team events tc required_team) [solution1] seeds
    = Some solutions
    ∧ head solutions = Some solution1
    ∧ ∀ i sol, 0 < i → solutions !! i = Some sol →
        ∃ s, s ∈ seeds ∧ Some s ≠ required_team
          ∧ sol = round_solution events tc required_team s
          ∧ size (covered_events tc sol.1) = length events.
Proof.
  intros tc solution1.
  apply (for_each_inv _ (λ solutions,
    head solutions = Some solution1
    ∧ ∀ i sol, 0 < i → solutions !! i = Some sol →
        ∃ s, s ∈ seeds ∧ Some s ≠ required_team
          ∧ sol = round_solution events tc required_team s
          ∧ size (covered_events tc sol.1) = length events)).
  - intros sols s [Hhd Hr] Hs.
    rewrite try_start_team_eq by apply find_team_coverage_wf.
    eexists; split; [done|].
    assert (Hlen : 0 < length sols) by (destruct sols; simplify_eq/=; lia).
    rewrite (bool_decide_eq_true_2 (0 < length sols)) by done.
    rewrite andb_true_r. case_bool_decide as Hskip; [done|].
    case_bool_decide as Hsz; simpl; [|done].
    destruct (already_found _ _); simpl; [done|]. split.
    + by destruct sols.
    + intros i sol Hi [Hsol|[_ Hsol]]%lookup_app_Some; [by apply (Hr i)|].
      apply list_lookup_singleton_Some in Hsol as [_ <-]. exists s. done.
  - split; [done|]. intros [|i] sol Hi Hsol; [lia|done].
Qed.

(** Every returned solution is the selector's or the one proposed by the
    round of a seed other than the required team, and then it passed the
    test of line 239. *)
Lemma find_alternative_solutions_members events required_team max_solutions
    max_team_number excluded_teams included_teams :
  let tc := find_team_coverage events max_team_number excluded_teams included_teams in
  let solution1 :=
    greedy_set_cover_with_required_team events required_team max_team_number
      excluded_teams included_teams in
  ∃ solutions,
    find_alternative_solutions events required_team max_solutions max_team_number
      excluded_teams included_teams = Some solutions
    ∧ ∀ sol, sol ∈ solutions →
        sol = solution1
        ∨ ∃ s, Some s ≠ required_team
            ∧ sol = round_solution events tc required_team s
            ∧ size (covered_events tc sol.1) = length events.
Proof.
  intros tc solution1. unfold find_alternative_solutions; cbv zeta.
  rewrite app_nil_l. fold tc solution1.
  destruct (explorer_accumulates_rounds events required_team max_team_number
              excluded_teams included_teams
              (py_slice_to (multi_event_teams tc required_team) max_solutions))
    as (sols & Hsols & Hhd & Hr).
  fold tc solution1 in Hsols, Hhd, Hr. rewrite Hsols. simpl.
  eexists; split; [done|].
  intros sol [i Hi]%py_slice_to_elem_of%list_elem_of_lookup.
  destruct i as [|i].
  - left. destruct sols; simplify_eq/=. done.
  - right. destruct (Hr (S i) sol) as (s & _ & ? & ? & ?); [lia|done|]. eauto.
Qed.

Lemma round_teams_required_first events tc r s :
  r ≠ 0%Z → r ∈ tc.*1 → s ≠ r →
  head (round_teams events tc (Some r) s) = Some r.
Proof.
  intros Hr [evs Hg]%dict_getitem_is_Some Hs. unfold round_teams, start_state.
  rewrite (seed_required_present tc r (Some s) [] _ evs)
    by (done || by intros [= ->]).
  destruct (dict_getitem tc s) as [sevs|]; simpl.
  - destruct (greedy_loop_picks tc [r; s]
      ((list_to_set events.*1 ∖ list_to_set evs)
         ∖ (list_to_set sevs ∩ (list_to_set events.*1 ∖ list_to_set evs))))
      as (picks & -> & _). done.
  - destruct (greedy_loop_picks tc [r]
      (list_to_set events.*1 ∖ list_to_set evs)) as (picks & -> & _). done.
Qed.

(** X3. When the required team is not 0 and is a key of the index, every
    solution of the returned list, not only the first, starts with the
    required team. *)
Theorem X3_required_team_first_in_every_solution :
  ∀ (events : list (string * list Z)) (required_team : Z)
    (max_solutions max_team_number : Z)
    (excluded_teams included_teams : option (list Z)),
    required_team ≠ 0%Z →
    required_team
      ∈ (find_team_coverage events max_team_number excluded_teams included_teams).*1 →
    ∃ solutions,
      find_alternative_solutions events (Some required_team) max_solutions
        max_team_number excluded_teams included_teams = Some solutions
      ∧ ∀ sol, sol ∈ solutions → head sol.1 = Some required_team.
Proof.
  intros events r K mx ex inc Hr Hkey.
  destruct (find_alternative_solutions_members events (Some r) K mx ex inc)
    as (sols & Hsols & Hmem).
  exists sols. split; [done|]. intros sol Hsol.
  destruct (Hmem sol Hsol) as [->|(s & Hs & -> & _)].
  - by apply selector_required_first.
  - apply round_teams_required_first; [done..|]. by intros ->.
Qed.

Lemma X3_required_team_first_in_every_solution_witness :
  1%Z ≠ 0%Z
  ∧ 1%Z ∈ (find_team_coverage events_triangle 12000 None None).*1
  ∧ ∃ solutions,
      find_alternative_solutions events_triangle (Some 1%Z) 5 12000 None None
      = Some solutions
      ∧ ∀ sol, sol ∈ solutions → head sol.1 = Some 1%Z.
Proof.
  assert (H0 : 1%Z ≠ 0%Z) by lia.
  assert (H1 : 1%Z ∈ (find_team_coverage events_triangle 12000 None None).*1)
    by (vm_compute; apply list_elem_of_here).
  split_and!; [exact H0|exact H1|].
  exact (X3_required_team_first_in_every_solution events_triangle 1 5 12000
           None None H0 H1).
Defined.

(** X4. No returned solution contains a team that the eligibility rule
    rejects: every team of every solution occurs in some team list of the
    raw mapping, is not excluded, and is at most the threshold or included;
    and the count returned with a solution is the number of its teams. *)
Theorem X4_solutions_contain_eligible_teams_only :
  ∀ (events : list (string * list Z)) (required_team : option Z)
    (max_solutions max_team_number : Z)
    (excluded_teams included_teams : option (list Z)),
    ∃ solutions,
      find_alternative_solutions events required_team max_solutions max_team_number
        excluded_teams included_teams = Some solutions
      ∧ ∀ sol, sol ∈ solutions →
          sol.2 = length sol.1
          ∧ ∀ team, team ∈ sol.1 →
              (∃ event_name teams, (event_name, teams) ∈ events ∧ team ∈ teams)
              ∧ (team ∉ or_empty excluded_teams)
              ∧ ((team ≤ max_team_number)%Z ∨ team ∈ or_empty included_teams).
Proof.
  intros events r K mx ex inc.
  destruct (find_alternative_solutions_members events r K mx ex inc)
    as (sols & Hsols & Hmem).
  destruct (explorer_teams_in_index events r K mx ex inc) as (sols' & Hsols' & Hin).
  rewrite Hsols in Hsols'. injection Hsols' as <-.
  exists sols. split; [done|]. intros sol Hsol. split.
  - destruct (Hmem sol Hsol) as [->|(s & _ & -> & _)]; [|done].
    by rewrite selector_eq.
  - intros t Ht. pose proof (Hin sol t Hsol Ht) as Hkey.
    pose proof (index_key_eligible _ _ _ _ _ Hkey) as He.
    rewrite find_team_coverage_add_events, add_events_keys in Hkey.
    destruct Hkey as [?%elem_of_nil|(e & teams & ? & ? & _)]; [done|].
    apply bool_decide_eq_true in He as [? ?]. eauto 10.
Qed.

(** X5. The selector never selects more teams than there are events: the
    required team, when it is put first, and every team appended by the
    loop each cover an event that the teams before them do not. *)
Theorem X5_selector_at_most_one_team_per_event :
  ∀ (events : list (string * list Z)) (required_team : option Z)
    (max_team_number : Z) (excluded_teams included_teams : option (list Z)),
    let solution1 :=
      greedy_set_cover_with_required_team events required_team max_team_number
        excluded_teams included_teams in
    solution1.2 ≤ size (list_to_set events.*1 : gset string)
    ∧ solution1.2 ≤ length events.
Proof.
  intros events r mx ex inc solution1.
  assert (Hle : size (list_to_set events.*1 : gset string) ≤ length events).
  { etrans; [apply size_list_to_set_le|]. by rewrite length_fmap. }
  cut (solution1.2 ≤ size (list_to_set events.*1 : gset string)); [lia|].
  subst solution1. rewrite selector_eq; cbv zeta. cbn [snd].
  set (tc := find_team_coverage _ _ _ _). set (U := list_to_set events.*1).
  destruct (seed_required_cases tc r None [] U)
    as [->|(z & evs & _ & _ & _ & Hg & ->)]; cbn [fst snd app].
  - destruct (greedy_loop_run tc [] U) as [n Hn].
    apply greedy_run_facts in Hn as ((picks & -> & <- & _) & Hsz & _). simpl. lia.
  - destruct (greedy_loop_run tc [z] (U ∖ list_to_set evs)) as [n Hn].
    apply greedy_run_facts in Hn as ((picks & Hpicks & Hlen & _) & Hsz & _).
    rewrite Hpicks, length_app. simpl.
    assert (size (U ∖ list_to_set evs) < size U); [|lia].
    apply subset_size. pose proof (index_entry_nonempty _ _ _ _ _ _ Hg) as Hne.
    destruct evs as [|e evs]; [done|].
    assert (e ∈ U).
    { apply elem_of_list_to_set.
      eapply find_team_coverage_events; [by eapply dict_getitem_elem_of|set_solver]. }
    set_solver.
Qed.

(** ** Degenerate inputs *)

Lemma greedy_loop_empty_index sel unc : greedy_loop [] sel unc = (sel, unc).
Proof. rewrite greedy_loop_eq. by case_decide. Qed.

(** X6. When no team is eligible, in particular for an empty raw mapping,
    the index is empty, the selector returns the empty solution with count
    0, and the explorer returns that solution alone (cut to
    [max_solutions]); nothing is raised. *)
Theorem X6_no_eligible_team :
  ∀ (events : list (string * list Z)) (required_team : option Z)
    (max_solutions max_team_number : Z)
    (excluded_teams included_teams : option (list Z)),
    find_team_coverage events max_team_number excluded_teams included_teams = [] →
    greedy_set_cover_with_required_team events required_team max_team_number
      excluded_teams included_teams = ([], 0)
    ∧ find_alternative_solutions events required_team max_solutions max_team_number
        excluded_teams included_teams
      = Some (py_slice_to [([], 0)] max_solutions).
Proof.
  intros events r K mx ex inc Hidx.
  assert (Hsel : greedy_set_cover_with_required_team events r mx ex inc = ([], 0)).
  { rewrite selector_eq; cbv zeta. rewrite Hidx.
    destruct (seed_required_cases [] r None [] (list_to_set events.*1))
      as [->|(z & evs & _ & _ & _ & Hg & _)]; [|done].
    by rewrite greedy_loop_empty_index. }
  split; [done|].
  unfold find_alternative_solutions; cbv zeta. rewrite Hsel, Hidx, app_nil_l.
  assert (Hseeds : ∀ s, s ∈ py_slice_to (multi_event_teams [] r) K → Some s = r).
  { intros s Hs%py_slice_to_elem_of. unfold multi_event_teams in Hs.
    destruct r as [z|]; simpl in Hs; [|by apply elem_of_nil in Hs].
    destruct (bool_decide (z ≠ 0%Z)); [|by apply elem_of_nil in Hs].
    by apply list_elem_of_singleton in Hs as ->. }
  destruct (for_each_inv (try_start_team events [] r)
              (λ sols, sols = [([], 0)])
              (py_slice_to (multi_event_teams [] r) K) [([], 0)])
    as (sols & -> & ->); [|done|done].
  intros sols s -> Hs%Hseeds. exists [([], 0)]. split; [|done].
  unfold try_start_team. by rewrite !bool_decide_eq_true_2 by (done || simpl; lia).
Qed.

Lemma X6_no_eligible_team_witness :
  find_team_coverage events_abcd 0 None None = []
  ∧ greedy_set_cover_with_required_team events_abcd (Some 1%Z) 0 None None = ([], 0)
  ∧ find_alternative_solutions events_abcd (Some 1%Z) 5 0 None None
    = Some (py_slice_to [([], 0)] 5).
Proof.
  split; [reflexivity|].
  exact (X6_no_eligible_team events_abcd (Some 1%Z) 5 0 None None eq_refl).
Defined.

(** ** Alternatives exist only beside a complete first solution *)

(** X7. When the selector's solution leaves an event uncovered, the
    explorer finds no alternative: the returned list has at most one
    element, the selector's solution. So a returned list either is the
    selector's solution alone or consists of complete solutions only. *)
Theorem X7_incomplete_first_solution_has_no_alternative :
  ∀ (events : list (string * list Z)) (required_team : option Z)
    (max_solutions max_team_number : Z)
    (excluded_teams included_teams : option (list Z)),
    let index :=
      find_team_coverage events max_team_number excluded_teams included_teams in
    let solution1 :=
      greedy_set_cover_with_required_team events required_team max_team_number
        excluded_teams included_teams in
    covered_events index solution1.1 ≠ list_to_set events.*1 →
    ∃ solutions,
      find_alternative_solutions events required_team max_solutions max_team_number
        excluded_teams included_teams = Some solutions
      ∧ (solutions = [] ∨ solutions = [solution1]).
Proof.
  intros events r K mx ex inc index solution1 Hinc.
  destruct (find_alternative_solutions_members events r K mx ex inc)
    as (sols & Hsols & Hmem).
  destruct (find_alternative_solutions_returns events r mx ex inc K)
    as (acc & n & Hsols' & (_ & Hd & _) & _).
  exists sols. split; [done|].
  assert (Hall : ∀ sol, sol ∈ sols → sol = solution1).
  { intros sol Hsol. destruct (Hmem sol Hsol) as [?|(s & _ & -> & Hsz)]; [done|].
    exfalso. apply Hinc. apply covered_events_complete in Hsz.
    fold index in Hsz. cbn [fst round_solution] in Hsz.
    apply (selector_complete_iff events r mx ex inc).
    by apply (round_teams_complete_iff events r s mx ex inc). }
  rewrite Hsols in Hsols'. injection Hsols' as ->.
  apply (distinct_team_sets_take _ n) in Hd.
  destruct (take n acc) as [|a [|b l]] eqn:Ht; [by left| |].
  - right. f_equal. apply Hall. set_solver.
  - exfalso. apply (Hd 0 1 a b); [lia|done|done|].
    rewrite (Hall a), (Hall b) by set_solver. done.
Qed.

Lemma X7_incomplete_first_solution_has_no_alternative_witness :
  covered_events (find_team_coverage events_abcd 10 (Some [1%Z]) None)
    (greedy_set_cover_with_required_team events_abcd (Some 1%Z) 10
       (Some [1%Z]) None).1
  ≠ list_to_set events_abcd.*1
  ∧ ∃ solutions,
      find_alternative_solutions events_abcd (Some 1%Z) 5 10 (Some [1%Z]) None
      = Some solutions
      ∧ (solutions = []
         ∨ solutions
           = [greedy_set_cover_with_required_team events_abcd (Some 1%Z) 10
                (Some [1%Z]) None]).
Proof.
  assert (H : covered_events (find_team_coverage events_abcd 10 (Some [1%Z]) None)
    (greedy_set_cover_with_required_team events_abcd (Some 1%Z) 10
       (Some [1%Z]) None).1
    ≠ list_to_set events_abcd.*1).
  { apply (bool_decide_eq_false_1 _). vm_compute. reflexivity. }
  split; [exact H|].
  exact (X7_incomplete_first_solution_has_no_alternative events_abcd (Some 1%Z)
           5 10 (Some [1%Z]) None H).
Defined.

(** * Properties of the command line *)

(** ** The filtering report *)

Section TeamSets.
Context (max_team : Z) (exclude_teams include_teams : list Z).

Lemma team_sets_elem (events : list (string * list Z)) (acc : gset Z * gset Z) (t : Z) :
  let sets :=
    fold_left
      (λ '(all_teams, filtered_teams) '((_, event_teams) : string * list Z),
         (all_teams ∪ list_to_set event_teams,
          filtered_teams
            ∪ list_to_set
                (filter (λ t, eligible max_team exclude_teams include_teams t)
                   event_teams)))
      events acc in
  (t ∈ sets.1
   ↔ t ∈ acc.1 ∨ ∃ e teams, (e, teams) ∈ events ∧ t ∈ teams)
  ∧ (t ∈ sets.2
     ↔ t ∈ acc.2
       ∨ ∃ e teams, (e, teams) ∈ events ∧ t ∈ teams
           ∧ eligible max_team exclude_teams include_teams t = true).
Proof.
  revert acc. induction events as [|[e teams] events IH]; intros [all filtered]; simpl.
  - split; (split; [by left|]); by intros [?|(? & ? & ?%elem_of_nil & _)].
  - destruct (IH (all ∪ list_to_set teams,
                  filtered ∪ list_to_set
                    (filter (λ t, eligible max_team exclude_teams include_teams t)
                       teams))) as [IH1 IH2].
    simpl in IH1, IH2. split.
    + rewrite IH1, elem_of_union, elem_of_list_to_set. split.
      * intros [[?|?]|(e' & ts & ? & ?)]; [by left|right..].
        -- exists e, teams. set_solver.
        -- exists e', ts. set_solver.
      * intros [?|(e' & ts & [[= -> ->]|?]%elem_of_cons & ?)];
          [by left; left|by left; right|].
        right. eauto.
    + rewrite IH2, elem_of_union, elem_of_list_to_set, list_elem_of_filter.
      rewrite Is_true_true. split.
      * intros [[?|[? ?]]|(e' & ts & ? & ? & ?)]; [by left|right..].
        -- exists e, teams. set_solver.
        -- exists e', ts. set_solver.
      * intros [?|(e' & ts & [[= -> ->]|?]%elem_of_cons & ? & ?)];
          [by left; left|by left; right|].
        right. eauto.
Qed.

Lemma all_teams_elem events t :
  t ∈ (team_sets events max_team exclude_teams include_teams).1
  ↔ ∃ e teams, (e, teams) ∈ events ∧ t ∈ teams.
Proof.
  unfold team_sets. rewrite (proj1 (team_sets_elem events (∅, ∅) t)). set_solver.
Qed.

Lemma filtered_teams_elem events t :
  t ∈ (team_sets events max_team exclude_teams include_teams).2
  ↔ ∃ e teams, (e, teams) ∈ events ∧ t ∈ teams
      ∧ eligible max_team exclude_teams include_teams t = true.
Proof.
  unfold team_sets. rewrite (proj2 (team_sets_elem events (∅, ∅) t)). set_solver.
Qed.
End TeamSets.

(** X8. The set [filtered_teams] that [main] computes for its report is the
    set of keys of the coverage index, so the number of teams it prints
    after filtering, [len(team_coverage)], is the size of that set. *)
Theorem X8_filtered_teams_are_index_keys :
  ∀ (events : list (string * list Z)) (max_team : Z)
    (exclude_teams include_teams : list Z),
    let team_coverage :=
      find_team_coverage events max_team (Some exclude_teams) (Some include_teams) in
    let filtered_teams := (team_sets events max_team exclude_teams include_teams).2 in
    filtered_teams = list_to_set team_coverage.*1
    ∧ size filtered_teams = length team_coverage.
Proof.
  intros events mx ex inc tc filtered.
  assert (Heq : filtered = list_to_set tc.*1).
  { apply set_eq. intros t. subst filtered tc.
    rewrite filtered_teams_elem, elem_of_list_to_set.
    rewrite find_team_coverage_add_events, add_events_keys. simpl.
    split; [by right|]. by intros [?%elem_of_nil|?]. }
  split; [done|]. rewrite Heq, size_list_to_set, length_fmap; [done|].
  apply find_team_coverage_wf.
Qed.

(** X9. The sets of the filtering report: the teams excluded by their
    number, the teams excluded by the list and the teams kept are pairwise
    disjoint sets of teams of the mapping; the only teams of the mapping in
    none of them are those above the threshold that are both in the
    inclusion and in the exclusion list; and a team reported as included
    by override is kept exactly when it is not in the exclusion list. *)
Theorem X9_filtering_report_sets :
  ∀ (events : list (string * list Z)) (max_team : Z)
    (exclude_teams include_teams : list Z),
    let all_teams := (team_sets events max_team exclude_teams include_teams).1 in
    let filtered_teams := (team_sets events max_team exclude_teams include_teams).2 in
    let by_number := excluded_by_number all_teams max_team include_teams in
    let by_list := excluded_by_list all_teams max_team exclude_teams in
    let by_override := included_by_override all_teams max_team include_teams in
    by_number ## by_list ∧ by_number ## filtered_teams ∧ by_list ## filtered_teams
    ∧ by_number ∪ by_list ∪ filtered_teams ⊆ all_teams
    ∧ (∀ t, t ∈ all_teams ∖ (by_number ∪ by_list ∪ filtered_teams)
            ↔ t ∈ all_teams ∧ (max_team < t)%Z
              ∧ t ∈ include_teams ∧ t ∈ exclude_teams)
    ∧ (∀ t, t ∈ by_override → (t ∈ filtered_teams ↔ t ∉ exclude_teams)).
Proof.
  intros events mx ex inc all filtered by_number by_list by_override.
  assert (Hf : ∀ t, t ∈ filtered
    ↔ t ∈ all ∧ ((t ≤ mx)%Z ∨ t ∈ inc) ∧ t ∉ ex).
  { intros t. subst filtered all. rewrite filtered_teams_elem, all_teams_elem.
    unfold eligible. split.
    - intros (e & ts & ? & ? & He). apply bool_decide_eq_true in He as [? ?].
      eauto 10.
    - intros ((e & ts & ? & ?) & ? & ?). exists e, ts. split_and!; [done..|].
      by apply bool_decide_eq_true. }
  assert (Hn : ∀ t, t ∈ by_number ↔ ((mx < t)%Z ∧ t ∉ inc) ∧ t ∈ all)
    by (intros t; subst by_number; unfold excluded_by_number;
        by rewrite elem_of_filter).
  assert (Hl : ∀ t, t ∈ by_list ↔ (t ∈ ex ∧ (t ≤ mx)%Z) ∧ t ∈ all)
    by (intros t; subst by_list; unfold excluded_by_list;
        by rewrite elem_of_filter).
  assert (Ho : ∀ t, t ∈ by_override ↔ ((mx < t)%Z ∧ t ∈ inc) ∧ t ∈ all)
    by (intros t; subst by_override; unfold included_by_override;
        by rewrite elem_of_filter).
  split_and!.
  - intros t [[? _] _]%Hn [[_ ?] _]%Hl. lia.
  - intros t [[? ?] _]%Hn (_ & [?|?] & _)%Hf; [lia|done].
  - intros t [[? _] _]%Hl (_ & _ & ?)%Hf. done.
  - intros t Ht. rewrite !elem_of_union, Hn, Hl, Hf in Ht. tauto.
  - intros t. rewrite elem_of_difference, !elem_of_union, Hn, Hl, Hf.
    assert (Hlt : (mx < t)%Z ↔ ¬ (t ≤ mx)%Z) by lia.
    destruct (decide (t ∈ inc)), (decide (t ∈ ex)), (decide (t ≤ mx)%Z); tauto.
  - intros t [[? ?] ?]%Ho. rewrite Hf. tauto.
Qed.

(** ** The coverage printed under a solution *)

Lemma verify_all_covered tc teams (acc : gset string) :
  fold_left
    (λ all_covered team,
       all_covered ∪ list_to_set (default [] (dict_getitem tc team)))
    teams acc
  = acc ∪ covered_events tc teams.
Proof.
  revert acc. induction teams as [|t teams IH]; intros acc; simpl.
  - rewrite covered_events_nil. set_solver.
  - rewrite IH. change (t :: teams) with ([t] ++ teams).
    rewrite covered_events_app, covered_events_singleton. set_solver.
Qed.

Lemma verify_coverage_eq events tc teams :
  verify_coverage events tc teams
  = if bool_decide (size (covered_events tc teams) = length events)
    then FullCoverage (size (covered_events tc teams))
    else IncompleteCoverage (list_to_set events.*1 ∖ covered_events tc teams).
Proof.
  unfold verify_coverage. cbv zeta. rewrite verify_all_covered.
  by rewrite (left_id_L ∅ (∪)).
Qed.

(** X10. The check that [main] prints under a solution is sound when the
    raw mapping is a dictionary: "Full coverage verified" is printed, with
    the number of events, exactly when the teams of the solution cover
    every event; otherwise the set printed as missing is the set of the
    events they do not cover, and it is not empty. *)
Theorem X10_printed_coverage_is_sound :
  ∀ (events : list (string * list Z)) (max_team : Z)
    (exclude_teams include_teams : option (list Z)) (teams : list Z),
    dict_wf events →
    let team_coverage :=
      find_team_coverage events max_team exclude_teams include_teams in
    match verify_coverage events team_coverage teams with
    | FullCoverage n =>
        n = length events
        ∧ covered_events team_coverage teams = list_to_set events.*1
    | IncompleteCoverage missing =>
        missing = list_to_set events.*1 ∖ covered_events team_coverage teams
        ∧ missing ≠ ∅
    end.
Proof.
  intros events mx ex inc teams Hwf tc. rewrite verify_coverage_eq.
  case_bool_decide as Hsz.
  - split; [done|]. by apply covered_events_complete.
  - split; [done|]. intros Hempty. apply Hsz.
    pose proof (covered_events_universe events mx ex inc teams) as Hsub.
    fold tc in Hsub.
    assert (covered_events tc teams = list_to_set events.*1) as ->.
    { apply set_eq. intros x. split; [apply Hsub|]. intros Hx.
      destruct (decide (x ∈ covered_events tc teams)) as [|Hn]; [done|].
      exfalso. apply (not_elem_of_empty (C:=gset string) x).
      rewrite <- Hempty. by apply elem_of_difference. }
    by rewrite size_list_to_set, length_fmap.
Qed.

Lemma X10_printed_coverage_is_sound_witness :
  dict_wf events_abcd
  ∧ match verify_coverage events_abcd
            (find_team_coverage events_abcd 10 None None) [2; 3]%Z with
    | FullCoverage n =>
        n = length events_abcd
        ∧ covered_events (find_team_coverage events_abcd 10 None None) [2; 3]%Z
          = list_to_set events_abcd.*1
    | IncompleteCoverage missing =>
        missing
        = list_to_set events_abcd.*1
          ∖ covered_events (find_team_coverage events_abcd 10 None None) [2; 3]%Z
        ∧ missing ≠ ∅
    end.
Proof.
  assert (Hwf : dict_wf events_abcd).
  { unfold dict_wf. apply (bool_decide_unpack _). vm_compute. exact I. }
  split; [exact Hwf|].
  exact (X10_printed_coverage_is_sound events_abcd 10 None None [2; 3]%Z Hwf).
Defined.

(** ** The recommendations *)

Lemma fold_min_spec (rest : list solution) (m0 : nat) :
  fold_min rest m0 ≤ m0
  ∧ (∀ sol, sol ∈ rest → fold_min rest m0 ≤ length sol.1)
  ∧ (fold_min rest m0 = m0 ∨ ∃ sol, sol ∈ rest ∧ length sol.1 = fold_min rest m0).
Proof.
  unfold fold_min. revert m0. induction rest as [|s rest IH]; intros m0; simpl.
  - split_and!; [lia| |by left]. by intros ? ?%elem_of_nil.
  - destruct (IH (m0 `min` length s.1)) as (Hle & Hall & Hex). split_and!.
    + lia.
    + intros sol [->|?]%elem_of_cons; [lia|by apply Hall].
    + destruct Hex as [Heq|(sol & ? & ?)].
      * destruct (Nat.min_spec m0 (length s.1)) as [[_ Hm]|[_ Hm]].
        -- left. lia.
        -- right. exists s. split; [set_solver|lia].
      * right. exists sol. split; [set_solver|done].
Qed.

Lemma recommendations_cons (s : solution) (rest : list solution) :
  recommendations (s :: rest)
  = Some (fold_min rest (length s.1),
          filter (λ sol : solution, length sol.1 = fold_min rest (length s.1))
            (s :: rest)).
Proof. reflexivity. Qed.

(** Some solution reaches the minimum, so the list of the optimal ones is
    not empty. *)
Lemma optimal_nonempty (s : solution) (rest : list solution) :
  filter (λ sol : solution, length sol.1 = fold_min rest (length s.1)) (s :: rest)
  ≠ [].
Proof.
  destruct (fold_min_spec rest (length s.1)) as (_ & _ & Hex). intros Hnil.
  assert (∃ sol, sol ∈ s :: rest ∧ length sol.1 = fold_min rest (length s.1))
    as (sol & Hin & Hlen).
  { destruct Hex as [Heq|(sol & Hin & Hlen)]; [exists s|exists sol]; set_solver. }
  assert (sol ∈ filter (λ sol : solution,
                          length sol.1 = fold_min rest (length s.1)) (s :: rest))
    as Hs by (by apply list_elem_of_filter).
  rewrite Hnil in Hs. by apply elem_of_nil in Hs.
Qed.

(** X11. The recommendations: none is printed only for an empty list of
    solutions; otherwise the minimum printed is the least number of teams
    of a solution, the solutions counted as optimal are exactly the
    solutions with that many teams, in their order, and there is at least
    one. *)
Theorem X11_recommended_solutions_are_the_smallest :
  ∀ (solutions : list solution),
    match recommendations solutions with
    | None => solutions = []
    | Some (m, optimal) =>
        optimal ≠ []
        ∧ (∀ sol, sol ∈ solutions → m ≤ length sol.1)
        ∧ (∀ sol, sol ∈ optimal ↔ sol ∈ solutions ∧ length sol.1 = m)
        ∧ optimal `sublist_of` solutions
    end.
Proof.
  intros [|s rest]; [done|]. rewrite recommendations_cons.
  destruct (fold_min_spec rest (length s.1)) as (Hle & Hall & _).
  split_and!.
  - apply optimal_nonempty.
  - intros sol [->|?]%elem_of_cons; [done|by apply Hall].
  - intros sol. rewrite list_elem_of_filter. tauto.
  - apply sublist_filter.
Qed.

(** ** The branches of [main] *)

Lemma main_analysis_eq events team_number max_team max_solutions
    exclude_teams include_teams :
  let team_coverage :=
    find_team_coverage events max_team (Some exclude_teams) (Some include_teams) in
  main_analysis events team_number max_team max_solutions exclude_teams include_teams
  = if bool_decide (events = []) then NoEvents
    else if bool_decide (team_number ∈ exclude_teams) then TeamExcluded
    else if bool_decide (team_number ∉ team_coverage.*1) then TeamNotFound
    else
      match find_alternative_solutions events (Some team_number) max_solutions
              max_team (Some exclude_teams) (Some include_teams) with
      | None => Raised
      | Some solutions =>
          Report solutions
            ((λ sol, verify_coverage events team_coverage sol.1) <$> solutions)
            (recommendations solutions)
      end.
Proof. by destruct events. Qed.

(** X12. [main] reaches its report exactly when the raw mapping is not
    empty, the team is not in the exclusion list, and the team occurs in
    the team list of some event and is at most the threshold or in the
    inclusion list. The exclusion error has precedence over the warning
    that the team was not found, and no [KeyError] of the engine leaves
    [main]. *)
Theorem X12_main_branches :
  ∀ (events : list (string * list Z)) (team_number : Z)
    (max_team max_solutions : Z) (exclude_teams include_teams : list Z),
    let outcome :=
      main_analysis events team_number max_team max_solutions
        exclude_teams include_teams in
    let occurs := ∃ event_name teams, (event_name, teams) ∈ events ∧ team_number ∈ teams in
    outcome ≠ Raised
    ∧ (outcome = NoEvents ↔ events = [])
    ∧ (outcome = TeamExcluded ↔ events ≠ [] ∧ team_number ∈ exclude_teams)
    ∧ (outcome = TeamNotFound
       ↔ events ≠ [] ∧ (team_number ∉ exclude_teams)
         ∧ ¬ (occurs ∧ ((team_number ≤ max_team)%Z ∨ team_number ∈ include_teams)))
    ∧ ((∃ solutions verdicts recommended,
          outcome = Report solutions verdicts recommended)
       ↔ events ≠ [] ∧ (team_number ∉ exclude_teams)
         ∧ occurs ∧ ((team_number ≤ max_team)%Z ∨ team_number ∈ include_teams)).
Proof.
  intros events team mx K ex inc outcome occurs.
  assert (Hkey : team ∈ (find_team_coverage events mx (Some ex) (Some inc)).*1
                 ↔ occurs ∧ (team ∉ ex) ∧ ((team ≤ mx)%Z ∨ team ∈ inc)).
  { rewrite find_team_coverage_add_events, add_events_keys. simpl.
    unfold eligible, occurs. split.
    - intros [?%elem_of_nil|(e & ts & ? & ? & He)]; [done|].
      apply bool_decide_eq_true in He as [? ?]. eauto 10.
    - intros ((e & ts & ? & ?) & ? & ?). right. exists e, ts.
      split_and!; [done..|]. by apply bool_decide_eq_true. }
  subst outcome. rewrite main_analysis_eq; cbv zeta.
  destruct (find_alternative_solutions_returns events (Some team) mx
              (Some ex) (Some inc) K) as (sols & n & -> & _).
  clearbody occurs.
  repeat case_bool_decide; split_and!; try done.
  all: try (split; [done|]; tauto).
  all: try (split; [by intros (? & ? & ? & ?)|]; tauto).
  all: split; [intros _; tauto|intros _; by eauto].
Qed.

(** ** The report of [main] *)

Lemma find_alternative_solutions_alternatives events required_team max_solutions
    max_team_number excluded_teams included_teams :
  let tc := find_team_coverage events max_team_number excluded_teams included_teams in
  ∃ solutions,
    find_alternative_solutions events required_team max_solutions max_team_number
      excluded_teams included_teams = Some solutions
    ∧ ∀ i sol, 0 < i → solutions !! i = Some sol →
        ∃ s, Some s ≠ required_team
          ∧ sol = round_solution events tc required_team s
          ∧ size (covered_events tc sol.1) = length events.
Proof.
  intros tc. unfold find_alternative_solutions; cbv zeta.
  rewrite app_nil_l. fold tc.
  destruct (explorer_accumulates_rounds events required_team max_team_number
              excluded_teams included_teams
              (py_slice_to (multi_event_teams tc required_team) max_solutions))
    as (sols & Hsols & _ & Hr).
  fold tc in Hsols, Hr. rewrite Hsols. simpl.
  eexists; split; [done|].
  destruct (py_slice_to_take sols max_solutions) as [n ->].
  intros i sol Hi [Hsol _]%lookup_take_Some.
  destruct (Hr i sol Hi Hsol) as (s & _ & ? & ? & ?). eauto.
Qed.

(** X13. When [main] reports on a team number other than 0, what it
    announces holds: every solution it prints starts with that team, a
    verdict is printed for each solution, every solution after the first
    is printed with "Full coverage verified" and the number of events, and
    the recommendations are those of the printed solutions. *)
Theorem X13_main_report :
  ∀ (events : list (string * list Z)) (team_number : Z)
    (max_team max_solutions : Z) (exclude_teams include_teams : list Z)
    (solutions : list solution) (verdicts : list verdict)
    (recommended : option (nat * list solution)),
    main_analysis events team_number max_team max_solutions
      exclude_teams include_teams
    = Report solutions verdicts recommended →
    team_number ≠ 0%Z →
    (∀ sol, sol ∈ solutions → head sol.1 = Some team_number)
    ∧ length verdicts = length solutions
    ∧ (∀ i v, 0 < i → verdicts !! i = Some v → v = FullCoverage (length events))
    ∧ recommended = recommendations solutions.
Proof.
  intros events team mx K ex inc sols vs rec Hmain Hteam.
  rewrite main_analysis_eq in Hmain; cbv zeta in Hmain.
  repeat case_bool_decide; try done.
  assert (Hkey : team ∈ (find_team_coverage events mx (Some ex) (Some inc)).*1).
  { destruct (decide (team ∈ (find_team_coverage events mx (Some ex)
                                (Some inc)).*1)); [done|]. contradiction. }
  destruct (find_alternative_solutions_members events (Some team) K mx
              (Some ex) (Some inc)) as (sols' & Hsols & Hmem).
  destruct (find_alternative_solutions_alternatives events (Some team) K mx
              (Some ex) (Some inc)) as (sols'' & Hsols' & Halt).
  rewrite Hsols in Hsols'. injection Hsols' as <-.
  rewrite Hsols in Hmain. injection Hmain as <- <- <-.
  split_and!.
  - intros sol Hsol. destruct (Hmem sol Hsol) as [->|(s & Hs & -> & _)].
    + by apply selector_required_first.
    + apply round_teams_required_first; [done..|]. by intros ->.
  - by rewrite length_fmap.
  - intros i v Hi Hv. apply list_lookup_fmap_Some in Hv as (sol & -> & Hsol).
    destruct (Halt i sol Hi Hsol) as (s & _ & _ & Hsz).
    rewrite verify_coverage_eq, Hsz. by rewrite bool_decide_eq_true_2.
  - done.
Qed.

Lemma X13_main_report_witness :
  main_analysis events_triangle 1 12000 5 [] []
  = Report [([1; 2]%Z, 2); ([1; 3]%Z, 2)] [FullCoverage 3; FullCoverage 3]
      (Some (2, [([1; 2]%Z, 2); ([1; 3]%Z, 2)]))
  ∧ 1%Z ≠ 0%Z
  ∧ ∀ sol, sol ∈ [([1; 2]%Z, 2); ([1; 3]%Z, 2)] → head sol.1 = Some 1%Z.
Proof.
  assert (Hmain : main_analysis events_triangle 1 12000 5 [] []
    = Report [([1; 2]%Z, 2); ([1; 3]%Z, 2)] [FullCoverage 3; FullCoverage 3]
        (Some (2, [([1; 2]%Z, 2); ([1; 3]%Z, 2)])))
    by (vm_compute; reflexivity).
  assert (H1 : 1%Z ≠ 0%Z) by lia.
  split_and!; [exact Hmain|exact H1|].
  exact (proj1 (X13_main_report events_triangle 1 12000 5 [] [] _ _ _ Hmain H1)).
Defined.

(** X14. When [main] reports with [--max-solutions] at least 1, the first
    solution it prints is the selector's and recommendations are printed;
    the branch "No valid solutions found!" is taken with
    [--max-solutions 0] and then always, whatever the data. *)
Theorem X14_no_valid_solutions_only_for_zero_bound :
  ∀ (events : list (string * list Z)) (team_number : Z)
    (max_team max_solutions : Z) (exclude_teams include_teams : list Z)
    (solutions : list solution) (verdicts : list verdict)
    (recommended : option (nat * list solution)),
    (0 ≤ max_solutions)%Z →
    main_analysis events team_number max_team max_solutions
      exclude_teams include_teams
    = Report solutions verdicts recommended →
    if decide (max_solutions = 0%Z) then solutions = [] ∧ recommended = None
    else
      head solutions
      = Some (greedy_set_cover_with_required_team events (Some team_number)
                max_team (Some exclude_teams) (Some include_teams))
      ∧ ∃ m optimal, recommended = Some (m, optimal) ∧ optimal ≠ [].
Proof.
  intros events team mx K ex inc sols vs rec HK Hmain.
  rewrite main_analysis_eq in Hmain; cbv zeta in Hmain.
  repeat case_bool_decide; try done.
  destruct (find_alternative_solutions_returns events (Some team) mx
              (Some ex) (Some inc) K) as (acc & n & Hsols & Hinv & Hn).
  specialize (Hn HK) as ->. rewrite Hsols in Hmain. injection Hmain as <- <- <-.
  apply (explorer_inv_take _ _ _ _ _ _ (Z.to_nat K)) in Hinv as (_ & Hhd & _).
  case_decide as HK0; [by subst|].
  specialize (Hhd ltac:(lia)). split; [done|].
  destruct (take (Z.to_nat K) acc) as [|s rest]; [done|].
  rewrite recommendations_cons. eexists _, _. split; [done|].
  apply optimal_nonempty.
Qed.

Lemma X14_no_valid_solutions_only_for_zero_bound_witness :
  (0 ≤ 5)%Z
  ∧ main_analysis events_triangle 1 12000 5 [] []
    = Report [([1; 2]%Z, 2); ([1; 3]%Z, 2)] [FullCoverage 3; FullCoverage 3]
        (Some (2, [([1; 2]%Z, 2); ([1; 3]%Z, 2)]))
  ∧ if decide (5%Z = 0%Z)
    then [([1; 2]%Z, 2); ([1; 3]%Z, 2)] = [] ∧ Some (2, [([1; 2]%Z, 2); ([1; 3]%Z, 2)]) = None
    else
      head [([1; 2]%Z, 2); ([1; 3]%Z, 2)]
      = Some (greedy_set_cover_with_required_team events_triangle (Some 1%Z)
                12000 (Some []) (Some []))
      ∧ ∃ m optimal,
          Some (2, [([1; 2]%Z, 2); ([1; 3]%Z, 2)]) = Some (m, optimal)
          ∧ optimal ≠ [].
Proof.
  assert (HK : (0 ≤ 5)%Z) by lia.
  assert (Hmain : main_analysis events_triangle 1 12000 5 [] []
    = Report [([1; 2]%Z, 2); ([1; 3]%Z, 2)] [FullCoverage 3; FullCoverage 3]
        (Some (2, [([1; 2]%Z, 2); ([1; 3]%Z, 2)])))
    by (vm_compute; reflexivity).
  split_and!; [exact HK|exact Hmain|].
  exact (X14_no_valid_solutions_only_for_zero_bound events_triangle 1 12000 5
           [] [] _ _ _ HK Hmain).
Defined.

(** * Properties of the roster filter *)

Lemma filter_entry_fold event_teams data (st : list (list pyval) * gset string) :
  (fold_left (filter_entry event_teams) data st).1
  = st.1 ++ filter (kept event_teams) data.
Proof.
  revert st. induction data as [|entry data IH]; intros [acc out].
  { simpl. by rewrite app_nil_r. }
  cbn [fold_left]. rewrite IH, filter_cons. unfold filter_entry. cbn [fst].
  - destruct (decide (kept event_teams entry)) as [Hk|Hk].
    + destruct (is_header entry) eqn:Hh; [simpl; by rewrite <- app_assoc|].
      destruct Hk as [?|(v & Hv & Hin)]; [congruence|]. rewrite Hv.
      rewrite decide_True by done. simpl. by rewrite <- app_assoc.
    + destruct (is_header entry) eqn:Hh; [exfalso; apply Hk; by left|].
      destruct (entry !! 4) as [v|] eqn:Hv; [|done].
      rewrite decide_False; [done|]. intros Hin. apply Hk. right. eauto.
Qed.

Lemma filter_scouting_data_filter data event_teams :
  filter_scouting_data data event_teams = filter (kept event_teams) data.
Proof. unfold filter_scouting_data, filter_scouting_data_state. by rewrite filter_entry_fold. Qed.

(** X15. The roster filter returns the input list filtered, each entry as
    often as it occurs and in its place, by the test: the entry is a header
    row (first field the string "id", wherever it is and however short) or
    has more than four fields with the team of field 4, read as a string,
    in the roster. Entries with at most four fields, and entries whose team
    field is [None] unless the roster holds the empty string, are
    dropped. *)
Theorem X15_roster_filter_keeps :
  ∀ (scouting_data : list (list pyval)) (event_teams : gset string),
    filter_scouting_data scouting_data event_teams
    = filter (kept event_teams) scouting_data
    ∧ filter_scouting_data scouting_data event_teams `sublist_of` scouting_data
    ∧ (∀ entry, entry ∈ filter_scouting_data scouting_data event_teams
         ↔ entry ∈ scouting_data
           ∧ (is_header entry = true
              ∨ ∃ v, entry !! 4 = Some v ∧ team_field v ∈ event_teams))
    ∧ (∀ entry, entry ∈ filter_scouting_data scouting_data event_teams →
         is_header entry = false → 4 < length entry)
    ∧ (∀ entry, entry ∈ filter_scouting_data scouting_data event_teams →
         is_header entry = false → entry !! 4 = Some PyNone → "" ∈ event_teams).
Proof.
  intros data roster. rewrite filter_scouting_data_filter. split_and!.
  - done.
  - apply sublist_filter.
  - intros entry. rewrite list_elem_of_filter. unfold kept. tauto.
  - intros entry [[Hh|(v & Hv & _)] _]%list_elem_of_filter Hnh; [congruence|].
    by apply lookup_lt_Some in Hv.
  - intros entry [[Hh|(v & Hv & Hin)] _]%list_elem_of_filter Hnh Hnone; [congruence|].
    rewrite Hv in Hnone. by injection Hnone as ->.
Qed.

Lemma filter_entry_fold_out event_teams data
    (st : list (list pyval) * gset string) (t : string) :
  t ∈ (fold_left (filter_entry event_teams) data st).2
  ↔ t ∈ st.2
    ∨ ∃ entry v, entry ∈ data ∧ is_header entry = false
        ∧ entry !! 4 = Some v ∧ team_field v = t ∧ t ∉ event_teams.
Proof.
  revert st. induction data as [|entry data IH]; intros [acc out].
  { simpl. split; [by left|]. intros [?|(? & ? & []%elem_of_nil & _)]. done. }
  cbn [fold_left]. rewrite IH. unfold filter_entry. cbn [snd].
  setoid_rewrite elem_of_cons.
  destruct (is_header entry) eqn:Hh; cbn [snd].
  { split; intros [?|(e & v & He & ?)]; [by left|right; naive_solver|by left|].
    destruct He as [->|He]; [naive_solver congruence|right; naive_solver]. }
  destruct (entry !! 4) as [w|] eqn:Hw; [case_decide as Hin|]; cbn [snd].
  - split; intros [?|(e & v & He & ?)]; [by left|right; naive_solver|by left|].
    destruct He as [->|He]; [|right; naive_solver].
    exfalso. naive_solver.
  - rewrite elem_of_union, elem_of_singleton.
    split.
    + intros [[?| ->]|(e & v & He & ?)];
        [by left|right; exists entry, w; naive_solver|right; naive_solver].
    + intros [?|(e & v & He & Hnh & Hv & Ht & Hout)]; [by left; left|].
      destruct He as [->|He]; [|right; naive_solver].
      left; right. congruence.
  - split; intros [?|(e & v & He & ?)]; [by left|right; naive_solver|by left|].
    destruct He as [->|He]; [naive_solver congruence|right; naive_solver].
Qed.

Lemma teams_filtered_out_elem scouting_data event_teams (t : string) :
  t ∈ (filter_scouting_data_state scouting_data event_teams).2
  ↔ ∃ entry v, entry ∈ scouting_data ∧ is_header entry = false
      ∧ entry !! 4 = Some v ∧ team_field v = t ∧ t ∉ event_teams.
Proof.
  unfold filter_scouting_data_state. rewrite filter_entry_fold_out. simpl.
  split; [intros [?%elem_of_empty|?]; done|by right].
Qed.

(** X16. Filtering again with the same roster changes nothing, and a larger
    roster keeps at least the same entries. The message after the loop
    names a number only when some entry with more than four fields was
    dropped; that number, [len(filtered_entries) - len(scouting_data)], is
    then negative, and the teams named are the non-empty team fields of
    the dropped entries with more than four fields. When the message says
    that no entries needed to be filtered, every entry of the input is
    kept or has at most four fields. *)
Theorem X16_roster_filter_idempotent_monotone :
  ∀ (scouting_data : list (list pyval)) (event_teams event_teams' : gset string),
    filter_scouting_data (filter_scouting_data scouting_data event_teams) event_teams
    = filter_scouting_data scouting_data event_teams
    ∧ (event_teams ⊆ event_teams' →
       filter_scouting_data scouting_data event_teams
         `sublist_of` filter_scouting_data scouting_data event_teams')
    ∧ match printed_message scouting_data event_teams with
      | FilteredOut count teams =>
          count
          = (Z.of_nat (length (filter_scouting_data scouting_data event_teams))
             - Z.of_nat (length scouting_data))%Z
          ∧ (count < 0)%Z
          ∧ (∀ t, t ∈ teams
               ↔ t ≠ "" ∧ (t ∉ event_teams)
                 ∧ ∃ entry v, entry ∈ scouting_data ∧ is_header entry = false
                     ∧ entry !! 4 = Some v ∧ team_field v = t)
      | NothingFiltered =>
          ∀ entry, entry ∈ scouting_data →
            entry ∈ filter_scouting_data scouting_data event_teams
            ∨ (is_header entry = false ∧ length entry ≤ 4)
      end.
Proof.
  intros data roster roster'. split_and!.
  - rewrite !filter_scouting_data_filter.
    induction data as [|entry data IH]; [done|].
    rewrite filter_cons. case_decide as Hk; [|done].
    by rewrite filter_cons, decide_True, IH.
  - rewrite !filter_scouting_data_filter.
    intros Hsub. induction data as [|entry data IH]; [done|].
    rewrite !filter_cons. case_decide as Hk.
    + rewrite decide_True; [by constructor|].
      destruct Hk as [?|(v & ? & ?)]; [by left|right; exists v; set_solver].
    + case_decide; [by constructor|done].
  - pose proof (teams_filtered_out_elem data roster) as Hout.
    unfold printed_message, filter_scouting_data.
    destruct (filter_scouting_data_state data roster) as [filtered out] eqn:Hst.
    assert (Hfiltered : filtered = filter (kept roster) data).
    { rewrite <- filter_scouting_data_filter. unfold filter_scouting_data.
      by rewrite Hst. }
    cbn [fst snd] in *. case_decide as Hne.
    + split_and!; [done| |].
      * apply set_choose_L in Hne as [t Ht].
        apply Hout in Ht as (entry & v & Hentry & Hnh & Hv & Ht & Hnot).
        assert (Hdrop : ¬ kept roster entry).
        { intros [?|(v' & Hv' & Hin)]; [congruence|].
          rewrite Hv in Hv'. injection Hv' as <-. by rewrite Ht in Hin. }
        pose proof (length_filter_lt (kept roster) data entry Hentry Hdrop).
        subst filtered. lia.
      * intros t. rewrite elem_of_filter, Hout. naive_solver.
    + intros entry Hentry. subst filtered. rewrite list_elem_of_filter.
      destruct (decide (kept roster entry)) as [Hk|Hk]; [by left|right].
      destruct (is_header entry) eqn:Hh; [exfalso; apply Hk; by left|].
      split; [done|].
      destruct (entry !! 4) as [v|] eqn:Hv; [|by apply lookup_ge_None in Hv].
      exfalso.
      assert (Hin : team_field v ∈ out).
      { apply Hout. exists entry, v. split_and!; [done..|].
        intros Hin. apply Hk. right. eauto. }
      rewrite Hne in Hin. by apply elem_of_empty in Hin.
Qed.

Example roster_filter_sample :
  filter_scouting_data scouting_sample {["1234"; "5678"]}
  = [ [PyStr "id"; PyStr "matchNumber"; PyStr "alliance"; PyStr "scouterInitials";
       PyStr "selectTeam"; PyStr "startPoses0"];
      [PyStr "abc123def456"; PyInt 1; PyStr "red"; PyStr "JD"; PyStr "1234"; PyStr "0"];
      [PyStr "vwx234yza567"; PyInt 4; PyStr "blue"; PyStr "SM"; PyInt 5678; PyNone] ]%Z
  ∧ printed_message scouting_sample {["1234"; "5678"]}
    = FilteredOut (-3) {["9999"]}.
Proof. vm_compute. split; reflexivity. Qed.

(** An entry with too few fields is dropped, and the message still says
    that no entries needed to be filtered. *)
Example roster_filter_short_entry :
  filter_scouting_data [[PyStr "short"; PyInt 2]] ∅ = []
  ∧ printed_message [[PyStr "short"; PyInt 2]] ∅ = NothingFiltered.
Proof. vm_compute. split; reflexivity. Qed.
